(** * The collaborative map of routerlicious ([src/api/map.ts])

    A shallow embedding of the class [Map] of [map.ts] and of the part of
    its environment its methods talk to (the delta manager, the object
    storage service, the console, the event emitter and the promises its
    asynchronous methods wait for), followed by the properties of the
    replication engine that are checked against it.

    Conventions of the embedding.
    - JavaScript numbers that hold sequence numbers are integers ([Z]).
    - A JavaScript object used as a dictionary is a [gmap] from property
      names to slots; only own properties are modelled.
    - The dictionary [this.data] is mutated in place by [setCore] and
      [deleteCore], replaced by [clearCore], and shallow-copied by
      [snapshot]: it lives in a heap of objects and the map holds its
      address.  The [IMapValue] records stored in its slots are never
      written to by [map.ts], they are modelled as values.
    - A method is a computation in a state-and-exception monad over the
      [World]; an [async] method is cut at each [await] into the part that
      runs at the call and the parts that run when the awaited promise
      settles, which the [Event]s of the machine at the end drive. *)

From stdpp Require Import base option list gmap strings pretty.
From Stdlib Require Import ZArith Lia Ascii.

Local Open Scope Z_scope.
Local Open Scope string_scope.
Local Open Scope list_scope.

(** ** Values *)

(** What a caller may store as a plain value (the [any] of [set]). *)
#[warnings="-register-all"]
Inductive Json : Type :=
  | JUndefined
  | JNull
  | JBool (b : bool)
  | JNum (n : Z)
  | JStr (s : string)
  | JArr (items : list Json)
  | JObj (fields : list (string * Json)).

(** [enum ValueType] and its reverse mapping [ValueType[v]]. *)
Inductive ValueType : Type := Collaborative | Plain.

Definition ValueType_name (v : ValueType) : string :=
  match v with
  | Collaborative => "Collaborative"
  | Plain => "Plain"
  end.

(** [interface ICollaborativeMapValue]. *)
Record ICollaborativeMapValue : Type := mkCollabValue {
  cmv_type : string;
  cmv_id : string;
}.

(** The [value: any] field of an [IMapValue]: the serialized reference to a
    collaborative object, or the caller's plain value. *)
Inductive StoredPayload : Type :=
  | PCollab (c : ICollaborativeMapValue)
  | PJson (j : Json).

(** [interface IMapValue]. *)
Record IMapValue : Type := mkMapValue {
  mv_type : string;
  mv_value : StoredPayload;
}.

(** A handle on a live collaborative object ([api.ICollaborativeObject]):
    its identity, and the [id] and [type] it advertises. *)
Record ICollaborativeObject : Type := mkObject {
  obj_ref : nat;
  obj_id : string;
  obj_type : string;
}.

(** The argument of [set], an [any]: a collaborative object, which is
    what [_.hasIn(value, "__collaborativeObject__")] tells apart, or a plain
    value. *)
Inductive UserValue : Type :=
  | UObject (o : ICollaborativeObject)
  | UPlain (j : Json).

(** [interface IMapOperation]; [key] and [value] are optional. *)
Record IMapOperation : Type := mkOp {
  op_type : string;
  op_key : option string;
  op_value : option IMapValue;
}.

(** [api.IMessage], what a client sends. *)
Record IMessage : Type := mkMessage {
  msg_clientSequenceNumber : Z;
  msg_op : IMapOperation;
  msg_referenceSequenceNumber : Z;
}.

(** [api.IBase] with the fields [api.ISequencedMessage] adds to it, what the
    server delivers. *)
Record ISequencedMessage : Type := mkSequenced {
  sm_sequenceNumber : Z;
  sm_minimumSequenceNumber : Z;
  sm_type : string;
  sm_clientId : string;
  sm_clientSequenceNumber : Z;
  sm_referenceSequenceNumber : Z;
  sm_op : IMapOperation;
}.

(** Modelled from the spec: [api.OperationType], the [type] of the
    sequenced messages that carry an operation, is declared in the [api]
    index module; the engine only compares message types with it. *)
Definition OperationType : string := "op".

(** [interface ISnapshot], with the address of the dictionary it holds. *)
Record ISnapshot : Type := mkSnapshot {
  snap_sequenceNumber : Z;
  snap_snapshot : nat;
}.

(** [api.IDeltaConnection]. *)
Record IDeltaConnection : Type := mkConnection {
  existing : bool;
  clientId : string;
}.

(** [api.ICollaborationServices], an opaque bundle of service handles. *)
Record ICollaborationServices : Type := mkServices {
  svc_name : string;
}.

(** [api.Registry]: the types it has an extension for. *)
Record Registry : Type := mkRegistry {
  extensions : list string;
}.

Definition getExtension (r : Registry) (type : string) : option string :=
  if decide (type ∈ extensions r) then Some type else None.

(** What [new DeltaManager(...)] is given by [listenForUpdates]. *)
Record DeltaManager : Type := mkDeltaManager {
  dm_baseSequenceNumber : Z;
  dm_connection : option IDeltaConnection;
}.

(** The events of [this.events.emit]. *)
Inductive MapEvent : Type :=
  | valueChanged (key : option string)
  | clear.

(** What a method can throw, or a promise be rejected with. *)
Inductive JsError : Type :=
  | AssertionError
  | TypeError
  | SyntaxError
  | UnknownKind
  | UnknownOperation
  | TransportError.

(** The state of the promise [loadingP]: [load] waiting for [connect],
    waiting for [read], or settled. *)
Inductive Loading : Type :=
  | Connecting
  | Reading
  | Resolved
  | Rejected (e : JsError).

(** A slot of a dictionary: [None] is a property that holds [undefined]. *)
Definition Slot : Type := option IMapValue.

(** ** The object and its world *)

(** The fields of [class Map]. *)
Record Map : Type := mkMap {
  map_id : string;
  services : option ICollaborationServices;
  registry : option Registry;
  loadingP : Loading;
  data : nat;
  connection : option IDeltaConnection;
  deltaManager : option DeltaManager;
  localOps : list IMessage;
  sequenceNumber : Z;
  minimumSequenceNumber : Z;
  clientSequenceNumber : Z;
  collaborativeObjects : gmap string ICollaborativeObject;
}.

(** A public asynchronous method called with its arguments. *)
Inductive Call : Type :=
  | CallKeys
  | CallGet (key : string)
  | CallHas (key : string)
  | CallSet (key : string) (value : UserValue)
  | CallDelete (key : string)
  | CallClear.

(** The map together with what its methods read and write around it. *)
Record World : Type := mkWorld {
  self : Map;
  (* the dictionaries allocated so far and the next free address *)
  heap : gmap nat (gmap string Slot);
  next_addr : nat;
  (* the calls of [events.emit], [deltaManager.submitOp],
     [objectStorageService.write] and [console.log], oldest first *)
  emitted : list MapEvent;
  submitted : list IMessage;
  written : list (string * ISnapshot);
  console : list string;
  (* the continuations suspended at [await this.loadingP] *)
  awaiting : list Call;
  (* the [attach] calls whose [connect] has not resolved yet *)
  attaching : nat;
  (* the [submit] calls suspended at [await collabObject.attach(...)] *)
  suspended : list (ICollaborativeObject * IMessage);
  (* the nested objects whose [isLocal()] answers false *)
  nested_attached : gset nat;
  (* rejections of promises nobody awaits, and exceptions that escape
     into the delta manager *)
  unhandled : list JsError;
}.

(** Field updates. *)
Definition set_services v (m : Map) : Map :=
  mkMap (map_id m) v (registry m) (loadingP m) (data m) (connection m)
    (deltaManager m) (localOps m) (sequenceNumber m) (minimumSequenceNumber m)
    (clientSequenceNumber m) (collaborativeObjects m).
Definition set_registry v (m : Map) : Map :=
  mkMap (map_id m) (services m) v (loadingP m) (data m) (connection m)
    (deltaManager m) (localOps m) (sequenceNumber m) (minimumSequenceNumber m)
    (clientSequenceNumber m) (collaborativeObjects m).
Definition set_loadingP v (m : Map) : Map :=
  mkMap (map_id m) (services m) (registry m) v (data m) (connection m)
    (deltaManager m) (localOps m) (sequenceNumber m) (minimumSequenceNumber m)
    (clientSequenceNumber m) (collaborativeObjects m).
Definition set_data v (m : Map) : Map :=
  mkMap (map_id m) (services m) (registry m) (loadingP m) v (connection m)
    (deltaManager m) (localOps m) (sequenceNumber m) (minimumSequenceNumber m)
    (clientSequenceNumber m) (collaborativeObjects m).
Definition set_connection v (m : Map) : Map :=
  mkMap (map_id m) (services m) (registry m) (loadingP m) (data m) v
    (deltaManager m) (localOps m) (sequenceNumber m) (minimumSequenceNumber m)
    (clientSequenceNumber m) (collaborativeObjects m).
Definition set_deltaManager v (m : Map) : Map :=
  mkMap (map_id m) (services m) (registry m) (loadingP m) (data m) (connection m)
    v (localOps m) (sequenceNumber m) (minimumSequenceNumber m)
    (clientSequenceNumber m) (collaborativeObjects m).
Definition set_localOps v (m : Map) : Map :=
  mkMap (map_id m) (services m) (registry m) (loadingP m) (data m) (connection m)
    (deltaManager m) v (sequenceNumber m) (minimumSequenceNumber m)
    (clientSequenceNumber m) (collaborativeObjects m).
Definition set_sequenceNumber v (m : Map) : Map :=
  mkMap (map_id m) (services m) (registry m) (loadingP m) (data m) (connection m)
    (deltaManager m) (localOps m) v (minimumSequenceNumber m)
    (clientSequenceNumber m) (collaborativeObjects m).
Definition set_minimumSequenceNumber v (m : Map) : Map :=
  mkMap (map_id m) (services m) (registry m) (loadingP m) (data m) (connection m)
    (deltaManager m) (localOps m) (sequenceNumber m) v
    (clientSequenceNumber m) (collaborativeObjects m).
Definition set_clientSequenceNumber v (m : Map) : Map :=
  mkMap (map_id m) (services m) (registry m) (loadingP m) (data m) (connection m)
    (deltaManager m) (localOps m) (sequenceNumber m) (minimumSequenceNumber m)
    v (collaborativeObjects m).
Definition set_collaborativeObjects v (m : Map) : Map :=
  mkMap (map_id m) (services m) (registry m) (loadingP m) (data m) (connection m)
    (deltaManager m) (localOps m) (sequenceNumber m) (minimumSequenceNumber m)
    (clientSequenceNumber m) v.

Definition set_self v (w : World) : World :=
  mkWorld v (heap w) (next_addr w) (emitted w) (submitted w) (written w)
    (console w) (awaiting w) (attaching w) (suspended w) (nested_attached w)
    (unhandled w).
Definition set_heap v (w : World) : World :=
  mkWorld (self w) v (next_addr w) (emitted w) (submitted w) (written w)
    (console w) (awaiting w) (attaching w) (suspended w) (nested_attached w)
    (unhandled w).
Definition set_next_addr v (w : World) : World :=
  mkWorld (self w) (heap w) v (emitted w) (submitted w) (written w)
    (console w) (awaiting w) (attaching w) (suspended w) (nested_attached w)
    (unhandled w).
Definition set_emitted v (w : World) : World :=
  mkWorld (self w) (heap w) (next_addr w) v (submitted w) (written w)
    (console w) (awaiting w) (attaching w) (suspended w) (nested_attached w)
    (unhandled w).
Definition set_submitted v (w : World) : World :=
  mkWorld (self w) (heap w) (next_addr w) (emitted w) v (written w)
    (console w) (awaiting w) (attaching w) (suspended w) (nested_attached w)
    (unhandled w).
Definition set_written v (w : World) : World :=
  mkWorld (self w) (heap w) (next_addr w) (emitted w) (submitted w) v
    (console w) (awaiting w) (attaching w) (suspended w) (nested_attached w)
    (unhandled w).
Definition set_console v (w : World) : World :=
  mkWorld (self w) (heap w) (next_addr w) (emitted w) (submitted w) (written w)
    v (awaiting w) (attaching w) (suspended w) (nested_attached w)
    (unhandled w).
Definition set_awaiting v (w : World) : World :=
  mkWorld (self w) (heap w) (next_addr w) (emitted w) (submitted w) (written w)
    (console w) v (attaching w) (suspended w) (nested_attached w)
    (unhandled w).
Definition set_attaching v (w : World) : World :=
  mkWorld (self w) (heap w) (next_addr w) (emitted w) (submitted w) (written w)
    (console w) (awaiting w) v (suspended w) (nested_attached w)
    (unhandled w).
Definition set_suspended v (w : World) : World :=
  mkWorld (self w) (heap w) (next_addr w) (emitted w) (submitted w) (written w)
    (console w) (awaiting w) (attaching w) v (nested_attached w)
    (unhandled w).
Definition set_nested_attached v (w : World) : World :=
  mkWorld (self w) (heap w) (next_addr w) (emitted w) (submitted w) (written w)
    (console w) (awaiting w) (attaching w) (suspended w) v
    (unhandled w).
Definition set_unhandled v (w : World) : World :=
  mkWorld (self w) (heap w) (next_addr w) (emitted w) (submitted w) (written w)
    (console w) (awaiting w) (attaching w) (suspended w) (nested_attached w)
    v.

(** ** The monad of methods *)

(** How a piece of code ends: normally with a value, or by throwing. *)
Inductive Completion (A : Type) : Type :=
  | Normal (a : A)
  | Throw (e : JsError).
Arguments Normal {A} a.
Arguments Throw {A} e.

Definition M (A : Type) : Type := World -> Completion A * World.

Definition ret {A} (a : A) : M A := fun w => (Normal a, w).
Definition throw {A} (e : JsError) : M A := fun w => (Throw e, w).
Definition bind {A B} (m : M A) (k : A -> M B) : M B :=
  fun w =>
    match m w with
    | (Normal a, w') => k a w'
    | (Throw e, w') => (Throw e, w')
    end.
Definition this : M Map := fun w => (Normal (self w), w).
Definition update (f : World -> World) : M unit := fun w => (Normal tt, f w).
Definition update_this (f : Map -> Map) : M unit :=
  update (fun w => set_self (f (self w)) w).

Declare Scope js_scope.
Delimit Scope js_scope with js.
Notation "x <- m ;; k" := (bind m (fun x => k))
  (at level 100, m at next level, right associativity) : js_scope.
Notation "m ;; k" := (bind m (fun _ => k))
  (at level 100, right associativity) : js_scope.
Local Open Scope js_scope.

(** The settled result of a piece of code and the world it leaves. *)
Definition outcome {A} (r : Completion A * World) : Completion A := fst r.
Definition after {A} (r : Completion A * World) : World := snd r.

(** ** The dictionary [this.data] *)

(** The dictionary at an address. *)
Definition object_at (a : nat) (w : World) : gmap string Slot :=
  default ∅ (heap w !! a).

(** Map State: the dictionary [this.data] points to. *)
Definition map_state (w : World) : gmap string Slot :=
  object_at (data (self w)) w.

(** A property name: [obj[undefined]] is the property ["undefined"]. *)
Definition property (key : option string) : string :=
  default "undefined" key.

(** [{}] and [_.clone(obj)]: a new dictionary at the next free address. *)
Definition allocate (o : gmap string Slot) : M nat :=
  fun w =>
    let a := next_addr w in
    (Normal a, set_next_addr (S a) (set_heap (<[a := o]> (heap w)) w)).

Definition emit (e : MapEvent) : M unit :=
  update (fun w => set_emitted (emitted w ++ [e]) w).

(** [setCore]: [this.data[key] = value], then the event. *)
Definition setCore (key : option string) (value : option IMapValue) : M unit :=
  update (fun w =>
    set_heap (<[data (self w) := <[property key := value]> (map_state w)]> (heap w)) w) ;;
  emit (valueChanged key).

(** [clearCore]: [this.data = {}], then the event. *)
Definition clearCore : M unit :=
  a <- allocate ∅ ;;
  update_this (set_data a) ;;
  emit clear.

(** [deleteCore]: [delete this.data[key]], then the event. *)
Definition deleteCore (key : option string) : M unit :=
  update (fun w =>
    set_heap (<[data (self w) := delete (property key) (map_state w)]> (heap w)) w) ;;
  emit (valueChanged key).

(** [processOperation]. *)
Definition processOperation (op : IMapOperation) : M unit :=
  if decide (op_type op = "clear") then clearCore
  else if decide (op_type op = "delete") then deleteCore (op_key op)
  else if decide (op_type op = "set") then setCore (op_key op) (op_value op)
  else throw UnknownOperation.

(** ** Submission *)

(** [collabObject.isLocal()] of a nested object. *)
Definition nested_isLocal (o : ICollaborativeObject) (w : World) : bool :=
  bool_decide (obj_ref o ∉ nested_attached w).

(** [this.deltaManager.submitOp(message)]. *)
Definition submitOp (message : IMessage) : M unit :=
  m <- this ;;
  match deltaManager m with
  | None => throw TypeError
  | Some _ => update (fun w => set_submitted (submitted w ++ [message]) w)
  end.

(** The part of [submit] that runs at the call.  A set of a collaborative
    value whose object is still local calls the object's [attach] and
    suspends on it: the message joins [suspended] and [submitOp] waits for
    the promise.  Every other message reaches [submitOp] at once. *)
Definition submit_body (message : IMessage) : M unit :=
  let op := msg_op message in
  if decide (op_type op = "set") then
    match op_value op with
    | None => throw TypeError
    | Some value =>
      if decide (mv_type value = ValueType_name Collaborative) then
        match mv_value value with
        | PJson _ => throw TypeError
        | PCollab collabMapValue =>
          m <- this ;;
          match collaborativeObjects m !! cmv_id collabMapValue with
          | None => throw TypeError
          | Some collabObject =>
            fun w =>
              if nested_isLocal collabObject w
              then (Normal tt,
                    set_suspended (suspended w ++ [(collabObject, message)]) w)
              else submitOp message w
          end
        end
      else submitOp message
    end
  else submitOp message.

(** A call of an [async] function nobody awaits: what it throws rejects a
    promise without a handler. *)
Definition detached (body : M unit) : M unit :=
  fun w =>
    match body w with
    | (Normal _, w') => (Normal tt, w')
    | (Throw e, w') => (Normal tt, set_unhandled (unhandled w' ++ [e]) w')
    end.

(** [this.submit(message)] as its callers use it, without [await]. *)
Definition submit (message : IMessage) : M unit :=
  detached (submit_body message).

(** ** Local operations *)

(** [processLocalOperation]. *)
Definition processLocalOperation (op : IMapOperation) : M unit :=
  m <- this ;;
  let message :=
    {| msg_clientSequenceNumber := clientSequenceNumber m;
       msg_op := op;
       msg_referenceSequenceNumber := sequenceNumber m |} in
  update_this (fun m => set_clientSequenceNumber (clientSequenceNumber m + 1) m) ;;
  update_this (fun m => set_localOps (localOps m ++ [message]) m) ;;
  match connection m with
  | Some _ => submit message
  | None => ret tt
  end ;;
  processOperation op.

(** The body of [set] after [await this.loadingP]. *)
Definition set_body (key : string) (value : UserValue) : M unit :=
  operationValue <-
    match value with
    | UObject collaborativeObject =>
      update_this (fun m =>
        set_collaborativeObjects
          (<[obj_id collaborativeObject := collaborativeObject]>
             (collaborativeObjects m)) m) ;;
      ret {| mv_type := ValueType_name Collaborative;
             mv_value := PCollab {| cmv_id := obj_id collaborativeObject;
                                    cmv_type := obj_type collaborativeObject |} |}
    | UPlain j =>
      ret {| mv_type := ValueType_name Plain; mv_value := PJson j |}
    end ;;
  processLocalOperation
    {| op_key := Some key; op_type := "set"; op_value := Some operationValue |}.

(** The body of [delete] after [await this.loadingP]. *)
Definition delete_body (key : string) : M unit :=
  processLocalOperation
    {| op_key := Some key; op_type := "delete"; op_value := None |}.

(** The body of [clear] after [await this.loadingP]. *)
Definition clear_body : M unit :=
  processLocalOperation
    {| op_key := None; op_type := "clear"; op_value := None |}.

(** ** Reads *)

(** What [get] resolves to: [undefined], a live collaborative object, or
    the [value] field of the stored [IMapValue]. *)
Inductive GetResult : Type :=
  | GUndefined
  | GObject (o : ICollaborativeObject)
  | GValue (v : StoredPayload).

(** The body of [get] after [await this.loadingP]. *)
Definition get_body (key : string) : M GetResult :=
  fun w =>
    match map_state w !! key with
    | None => (Normal GUndefined, w)
    | Some None => (Throw TypeError, w)
    | Some (Some value) =>
      if decide (mv_type value = ValueType_name Collaborative) then
        match mv_value value with
        | PJson _ => (Throw TypeError, w)
        | PCollab collabMapValue =>
          match collaborativeObjects (self w) !! cmv_id collabMapValue with
          | Some o => (Normal (GObject o), w)
          | None =>
            match registry (self w) with
            | None => (Throw TypeError, w)
            | Some r =>
              match getExtension r (cmv_type collabMapValue) with
              | None => (Throw UnknownKind, w)
              | Some type =>
                (* [extension.load(id, services, registry)]: a new object *)
                let o := {| obj_ref := next_addr w;
                            obj_id := cmv_id collabMapValue;
                            obj_type := type |} in
                (Normal (GObject o),
                 set_next_addr (S (next_addr w))
                   (set_self
                      (set_collaborativeObjects
                         (<[cmv_id collabMapValue := o]>
                            (collaborativeObjects (self w))) (self w)) w))
              end
            end
          end
        end
      else (Normal (GValue (mv_value value)), w)
    end.

(** The body of [has] after [await this.loadingP]: [key in this.data]. *)
Definition has_body (key : string) : M bool :=
  fun w => (Normal (bool_decide (is_Some (map_state w !! key))), w).

(** The body of [keys] after [await this.loadingP]; the order of the
    names is that of the dictionary's enumeration. *)
Definition keys_body : M (list string) :=
  fun w => (Normal ((map_to_list (map_state w)).*1), w).

(** [snapshot]: it is not [async] and reads the state at the call. *)
Definition snapshot : M unit :=
  m <- this ;;
  copy <- (fun w => allocate (map_state w) w) ;;
  let snapshot :=
    {| snap_sequenceNumber := sequenceNumber m; snap_snapshot := copy |} in
  match services m with
  | None => throw TypeError
  | Some _ =>
    update (fun w => set_written (written w ++ [(map_id m, snapshot)]) w)
  end.

(** [isLocal]. *)
Definition isLocal (w : World) : bool :=
  match connection (self w) with
  | Some _ => false
  | None => true
  end.

(** ** Inbound messages *)

(** The line [console.log] prints for an ack that does not match the head
    of the log. *)
Definition duplicate_ack (clientSequenceNumber : Z) : string :=
  "Duplicate ack received " +:+ pretty clientSequenceNumber.

(** [processRemoteOperation]. *)
Definition processRemoteOperation (message : ISequencedMessage) : M unit :=
  m <- this ;;
  match connection m with
  | None => throw TypeError
  | Some c =>
    if decide (sm_clientId message = clientId c) then
      match localOps m with
      | head :: rest =>
        if decide (msg_clientSequenceNumber head = sm_clientSequenceNumber message)
        then update_this (set_localOps rest)
        else update (fun w =>
               set_console
                 (console w ++ [duplicate_ack (sm_clientSequenceNumber message)]) w)
      | [] =>
        update (fun w =>
          set_console
            (console w ++ [duplicate_ack (sm_clientSequenceNumber message)]) w)
      end
    else processOperation (sm_op message)
  end.

(** [processRemoteMessage]. *)
Definition processRemoteMessage (message : ISequencedMessage) : M unit :=
  m <- this ;;
  if decide (sequenceNumber m + 1 = sm_sequenceNumber message) then
    update_this (set_sequenceNumber (sm_sequenceNumber message)) ;;
    update_this (set_minimumSequenceNumber (sm_minimumSequenceNumber message)) ;;
    if decide (sm_type message = OperationType)
    then processRemoteOperation message
    else ret tt
  else throw AssertionError.

(** ** Attaching and loading *)

(** [listenForUpdates]. *)
Definition listenForUpdates : M unit :=
  m <- this ;;
  match services m with
  | None => throw TypeError
  | Some _ =>
    update_this
      (set_deltaManager
         (Some {| dm_baseSequenceNumber := sequenceNumber m;
                  dm_connection := connection m |}))
  end.

(** [for (const localOp of ops) { this.submit(localOp); }]. *)
Fixpoint submit_all (ops : list IMessage) : M unit :=
  match ops with
  | [] => ret tt
  | localOp :: rest => submit localOp ;; submit_all rest
  end.

(** [attach] up to its [await]: the two assignments and the call of
    [connect]. *)
Definition attach_call (s : ICollaborationServices) (r : Registry) : M unit :=
  update_this (set_services (Some s)) ;;
  update_this (set_registry (Some r)) ;;
  update (fun w => set_attaching (S (attaching w)) w).

(** [attach] from the moment [connect] resolves with [c]. *)
Definition attach_connected (c : IDeltaConnection) : M unit :=
  update_this (set_connection (Some c)) ;;
  if existing c then throw AssertionError
  else
    listenForUpdates ;;
    m <- this ;;
    submit_all (localOps m).

(** What [objectStorageService.read] resolves to, seen through
    [JSON.parse]: nothing, a snapshot, or text that does not parse. *)
Inductive RawSnapshot : Type :=
  | NoBlob
  | Blob (sequenceNumber : Z) (snapshot : gmap string Slot)
  | Garbled.

(** [load] from the moment [rawSnapshot] is known. *)
Definition load_finish (rawSnapshot : RawSnapshot) : M unit :=
  parsed <-
    match rawSnapshot with
    | NoBlob => ret (0, ∅)
    | Blob n d => ret (n, d)
    | Garbled => throw SyntaxError
    end ;;
  a <- allocate (snd parsed) ;;
  update_this (set_data a) ;;
  update_this (set_sequenceNumber (fst parsed)) ;;
  listenForUpdates.

(** A step of [load] run to its next [await] or to its end: what it
    throws rejects [loadingP], its end resolves it. *)
Definition settle_load (body : M unit) : World -> World :=
  fun w =>
    match body w with
    | (Normal _, w') => set_self (set_loadingP Resolved (self w')) w'
    | (Throw e, w') => set_self (set_loadingP (Rejected e) (self w')) w'
    end.

(** [load] from the moment [connect] resolves with [c]: it waits for
    [read] when the document exists and finishes at once when not. *)
Definition load_connected (c : IDeltaConnection) : World -> World :=
  fun w =>
    let w1 := set_self (set_connection (Some c) (self w)) w in
    if existing c
    then set_self (set_loadingP Reading (self w1)) w1
    else settle_load (load_finish NoBlob) w1.

(** [load] from the moment [read] resolves. *)
Definition load_read (rawSnapshot : RawSnapshot) : World -> World :=
  settle_load (load_finish rawSnapshot).

(** [new Map(id, services, registry)]: the field initializers, then
    [loadingP], which is [load]'s promise when services are given (it
    calls [connect] and waits) and a resolved promise when not. *)
Definition new_Map (id : string) (s : option ICollaborationServices)
    (r : option Registry) : World :=
  {| self :=
       {| map_id := id;
          services := s;
          registry := r;
          loadingP := match s with Some _ => Connecting | None => Resolved end;
          data := 0%nat;
          connection := None;
          deltaManager := None;
          localOps := [];
          sequenceNumber := 0;
          minimumSequenceNumber := 0;
          clientSequenceNumber := 0;
          collaborativeObjects := ∅ |};
     heap := {[ 0%nat := ∅ ]};
     next_addr := 1%nat;
     emitted := [];
     submitted := [];
     written := [];
     console := [];
     awaiting := [];
     attaching := 0%nat;
     suspended := [];
     nested_attached := ∅;
     unhandled := [] |}.

(** [MapExtension.create] and [MapExtension.load]. *)
Definition create (id : string) : World := new_Map id None None.
Definition load (id : string) (s : ICollaborationServices) (r : Registry) : World :=
  new_Map id (Some s) (Some r).

(** ** The machine *)

(** What a public asynchronous method resolves to. *)
Inductive Result : Type :=
  | RVoid
  | RKeys (names : list string)
  | RGet (v : GetResult)
  | RHas (b : bool).

(** The body of a public asynchronous method, the code after its
    [await this.loadingP]. *)
Definition body_of (c : Call) : M Result :=
  match c with
  | CallKeys => names <- keys_body ;; ret (RKeys names)
  | CallGet key => v <- get_body key ;; ret (RGet v)
  | CallHas key => b <- has_body key ;; ret (RHas b)
  | CallSet key value => set_body key value ;; ret RVoid
  | CallDelete key => delete_body key ;; ret RVoid
  | CallClear => clear_body ;; ret RVoid
  end.

(** What moves the machine: a caller invoking a method, or the
    environment settling a promise or delivering a message. *)
Inductive Event : Type :=
  (* [keys], [get], [has], [set], [delete] or [clear] is called *)
  | Invoke (c : Call)
  (* the oldest continuation waiting on the settled [loadingP] runs *)
  | Continue
  (* [snapshot] is called *)
  | InvokeSnapshot
  (* [attach] is called *)
  | InvokeAttach (s : ICollaborationServices) (r : Registry)
  (* the [connect] of an [attach] resolves *)
  | AttachConnected (c : IDeltaConnection)
  (* the [connect] of [load] resolves *)
  | LoadConnected (c : IDeltaConnection)
  (* the [read] of [load] resolves *)
  | LoadRead (rawSnapshot : RawSnapshot)
  (* the [connect] or the [read] of [load] is rejected *)
  | LoadFailed
  (* the delta manager hands a sequenced message to its [op] callback *)
  | Deliver (message : ISequencedMessage)
  (* the [attach] a suspended [submit] waits for resolves, is rejected *)
  | NestedAttachResolved (i : nat)
  | NestedAttachRejected (i : nat).

(** What an event lets an observer see. *)
Inductive Observation : Type :=
  | Quiet
  | Settled (c : Call) (r : Completion Result)
  | SnapshotReturned (r : Completion unit)
  | AttachSettled (r : Completion unit)
  | Delivered (r : Completion unit).

(** One event.  [None]: the event cannot happen in this world. *)
Definition step (e : Event) (w : World) : option (Observation * World) :=
  match e with
  | Invoke c => Some (Quiet, set_awaiting (awaiting w ++ [c]) w)
  | Continue =>
    match awaiting w with
    | [] => None
    | c :: rest =>
      match loadingP (self w) with
      | Connecting | Reading => None
      | Rejected e => Some (Settled c (Throw e), set_awaiting rest w)
      | Resolved =>
        let r := body_of c (set_awaiting rest w) in
        Some (Settled c (outcome r), after r)
      end
    end
  | InvokeSnapshot =>
    let r := snapshot w in Some (SnapshotReturned (outcome r), after r)
  | InvokeAttach s r => Some (Quiet, after (attach_call s r w))
  | AttachConnected c =>
    match attaching w with
    | O => None
    | S n =>
      let r := attach_connected c (set_attaching n w) in
      Some (AttachSettled (outcome r), after r)
    end
  | LoadConnected c =>
    match loadingP (self w) with
    | Connecting => Some (Quiet, load_connected c w)
    | _ => None
    end
  | LoadRead rawSnapshot =>
    match loadingP (self w) with
    | Reading => Some (Quiet, load_read rawSnapshot w)
    | _ => None
    end
  | LoadFailed =>
    match loadingP (self w) with
    | Connecting | Reading =>
      Some (Quiet, set_self (set_loadingP (Rejected TransportError) (self w)) w)
    | _ => None
    end
  | Deliver message =>
    match deltaManager (self w) with
    | None => None
    | Some _ =>
      let r := processRemoteMessage message w in
      Some (Delivered (outcome r),
            match outcome r with
            | Normal _ => after r
            | Throw e => set_unhandled (unhandled (after r) ++ [e]) (after r)
            end)
    end
  | NestedAttachResolved i =>
    match suspended w !! i with
    | None => None
    | Some (o, message) =>
      let w1 :=
        set_nested_attached ({[ obj_ref o ]} ∪ nested_attached w)
          (set_suspended (delete i (suspended w)) w) in
      Some (Quiet, after (detached (submitOp message) w1))
    end
  | NestedAttachRejected i =>
    match suspended w !! i with
    | None => None
    | Some _ =>
      Some (Quiet,
            set_unhandled (unhandled w ++ [TransportError])
              (set_suspended (delete i (suspended w)) w))
    end
  end.

(** A run: the events in order, with what each lets see. *)
Fixpoint run (es : list Event) (w : World) : option (list Observation * World) :=
  match es with
  | [] => Some ([], w)
  | e :: rest =>
    match step e w with
    | None => None
    | Some (o, w') =>
      match run rest w' with
      | None => None
      | Some (os, w'') => Some (o :: os, w'')
      end
    end
  end.

(** The world a run ends in. *)
Definition final (es : list Event) (w : World) : option World :=
  snd <$> run es w.

(** ** The request handler of the code loader ([codeLoader.ts]) *)

(** JavaScript strings are sequences of code units; [s.substr(start)] and
    [s.substr(start, length)] on them, a [length] that is not positive
    giving the empty string. *)
Fixpoint js_drop (n : nat) (s : string) : string :=
  match n, s with
  | O, _ => s
  | S _, EmptyString => EmptyString
  | S n', String _ s' => js_drop n' s'
  end.

Fixpoint js_take (n : nat) (s : string) : string :=
  match n, s with
  | O, _ => EmptyString
  | S _, EmptyString => EmptyString
  | S n', String a s' => String a (js_take n' s')
  end.

Definition substr_from (start : nat) (s : string) : string := js_drop start s.

Definition substr (start : nat) (len : Z) (s : string) : string :=
  js_take (Z.to_nat len) (js_drop start s).

(** [s.indexOf(c, from)] for a one-character search string: the first
    position at or after [from] that holds [c], or -1. *)
Fixpoint indexOf_at (c : ascii) (s : string) (i from : nat) : Z :=
  match s with
  | EmptyString => -1
  | String a s' =>
    if (from <=? i)%nat && Ascii.eqb a c then Z.of_nat i
    else indexOf_at c s' (S i) from
  end.

Definition indexOf (c : ascii) (s : string) (from : nat) : Z :=
  indexOf_at c s 0 from.

(** [s.includes(c, from)]. *)
Definition includes (c : ascii) (s : string) (from : nat) : bool :=
  negb (indexOf c s from =? -1)%Z.

Definition rootMapId : string := "root".

(** [trimmed] in [ChaincodeFactory.containerRequestHandler]. *)
Definition trimmed (url : string) : string :=
  substr 0
    (if negb (includes "/"%char url 1) then Z.of_nat (String.length url)
     else indexOf "/"%char url 0)
    (substr_from 1 url).

(** [componentId], the data store the request goes to. *)
Definition componentId (url : string) : string :=
  if decide (trimmed url = "") then rootMapId else trimmed url.

(** The [url] of the request handed on to the data store. *)
Definition forwarded_url (url : string) : string :=
  substr_from (1 + String.length (trimmed url)) (trimmed url).

(** * Notions the properties are stated with *)

(** The fields of the map other than [data]. *)
Definition bookkeeping (m : Map) : Map := set_data 0%nat m.

(** What an operation of a known type does to a dictionary, and the event
    it announces. *)
Definition applied (op : IMapOperation) (d : gmap string Slot) : gmap string Slot :=
  if decide (op_type op = "clear") then ∅
  else if decide (op_type op = "delete") then delete (property (op_key op)) d
  else if decide (op_type op = "set") then <[property (op_key op) := op_value op]> d
  else d.

Definition announced (op : IMapOperation) : list MapEvent :=
  if decide (op_type op = "clear") then [clear]
  else if decide (op_type op = "delete") then [valueChanged (op_key op)]
  else if decide (op_type op = "set") then [valueChanged (op_key op)]
  else [].


(** A local write, and the bodies of a sequence of them run in order. *)
Inductive LocalWrite : Type :=
  | WSet (key : string) (value : UserValue)
  | WDelete (key : string)
  | WClear.

Definition write_body (x : LocalWrite) : M unit :=
  match x with
  | WSet key value => set_body key value
  | WDelete key => delete_body key
  | WClear => clear_body
  end.

Fixpoint write_all (xs : list LocalWrite) (w : World) : World :=
  match xs with
  | [] => w
  | x :: rest => write_all rest (after (write_body x w))
  end.

(** The [IMapValue] that [set] stores for a value, and the cache of
    collaborative objects once [set] has seen it. *)
Definition stored (value : UserValue) : IMapValue :=
  match value with
  | UObject o =>
    {| mv_type := "Collaborative";
       mv_value := PCollab {| cmv_type := obj_type o; cmv_id := obj_id o |} |}
  | UPlain j => {| mv_type := "Plain"; mv_value := PJson j |}
  end.

Definition cached (value : UserValue)
    (objs : gmap string ICollaborativeObject) : gmap string ICollaborativeObject :=
  match value with
  | UObject o => <[obj_id o := o]> objs
  | UPlain _ => objs
  end.

(** A message [submit] hands to the delta manager without waiting: its
    operation is not the set of a collaborative value. *)
Definition plain_message (message : IMessage) : Prop :=
  op_type (msg_op message) ≠ "set" ∨
  ∃ value, op_value (msg_op message) = Some value ∧
           mv_type value ≠ ValueType_name Collaborative.

(** A method respects a relation between worlds when the world it leaves
    is related to the one it started in, however it ends. *)
Definition respects (R : World → World → Prop) {A} (m : M A) : Prop :=
  ∀ w, R w (after (m w)).

(** The world in which the code after a resolved [connect] runs, once
    it has stored the connection. *)
Definition connected (c : IDeltaConnection) (w : World) : World :=
  set_self (set_connection (Some c) (self w)) w.

(** The world an event starts from, as far as the relation can tell:
    the events that resolve a [connect] store the connection first. *)
Definition entering (e : Event) (w : World) : World :=
  match e with
  | AttachConnected c | LoadConnected c => connected c w
  | _ => w
  end.



(** The dictionary of the map has been allocated. *)
Definition allocated (w : World) : Prop :=
  (data (self w) < next_addr w)%nat.

(** The relation "grew from": addresses are only added, the dictionary of
    the map is the same one or a new one, every older dictionary other
    than the map's is untouched, and the record of written blobs only
    grows at its end. *)
Definition grew_from (w w' : World) : Prop :=
  allocated w →
  allocated w' ∧
  (next_addr w ≤ next_addr w')%nat ∧
  (data (self w') = data (self w) ∨ (next_addr w ≤ data (self w'))%nat) ∧
  (∀ a, (a < next_addr w)%nat → a ≠ data (self w) →
        heap w' !! a = heap w !! a) ∧
  written w `prefix_of` written w'.

(** ** Worlds to evaluate the model on *)

Module Sample.
Definition map_type : string := "https://graph.microsoft.com/types/map".
Definition the_services : ICollaborationServices := {| svc_name := "services" |}.
Definition the_registry : Registry := {| extensions := [map_type] |}.
Definition created : IDeltaConnection := {| existing := false; clientId := "self" |}.
Definition found : IDeltaConnection := {| existing := true; clientId := "self" |}.

(** A map created locally and attached. *)
Definition attached : World :=
  after (attach_connected created
           (after (attach_call the_services the_registry (create "m")))).

(** A collaborative object nobody has attached yet. *)
Definition nested : ICollaborativeObject :=
  {| obj_ref := 7; obj_id := "n"; obj_type := map_type |}.

Definition set_op (key : string) (n : Z) : IMapOperation :=
  {| op_type := "set"; op_key := Some key;
     op_value := Some {| mv_type := "Plain"; mv_value := PJson (JNum n) |} |}.

(** The server's echo of the local message numbered [cseq]. *)
Definition echo (seq cseq : Z) (op : IMapOperation) : ISequencedMessage :=
  {| sm_sequenceNumber := seq; sm_minimumSequenceNumber := 0;
     sm_type := OperationType; sm_clientId := "self";
     sm_clientSequenceNumber := cseq; sm_referenceSequenceNumber := 0;
     sm_op := op |}.
End Sample.

(** Two sets on one map, the first of an object that is still local. *)
Module Overtaking.
Import Sample.

(** [set("child", nested)], then [set("a", 1)], each run to its end. *)
Definition two_sets : list Event :=
  [Invoke (CallSet "child" (UObject nested)); Continue;
   Invoke (CallSet "a" (UPlain (JNum 1))); Continue].

(** The client sequence numbers of the messages handed to the delta
    manager, of the pending submissions and of the log, oldest first. *)
Definition sent (w : World) : list Z :=
  msg_clientSequenceNumber <$> submitted w.
Definition held (w : World) : list Z :=
  (msg_clientSequenceNumber ∘ snd) <$> suspended w.
Definition logged (w : World) : list Z :=
  msg_clientSequenceNumber <$> localOps (self w).
End Overtaking.

(** ** Notions of the further properties *)

(** The operation each local write builds. *)
Definition issued (x : LocalWrite) : IMapOperation :=
  match x with
  | WSet key value =>
    {| op_type := "set"; op_key := Some key; op_value := Some (stored value) |}
  | WDelete key => {| op_type := "delete"; op_key := Some key; op_value := None |}
  | WClear => {| op_type := "clear"; op_key := None; op_value := None |}
  end.

(** A local write that stores no collaborative object. *)
Definition plain_write (x : LocalWrite) : Prop :=
  match x with
  | WSet _ (UObject _) => False
  | _ => True
  end.

(** An operation [processOperation] has a case for. *)
Definition known_operation (op : IMapOperation) : Prop :=
  op_type op = "set" ∨ op_type op = "delete" ∨ op_type op = "clear".

(** The messages the local writes [xs] put in the log when the counter is
    at [n] and the map at sequence number [seq]. *)
Fixpoint messages_of (n seq : Z) (xs : list LocalWrite) : list IMessage :=
  match xs with
  | [] => []
  | x :: rest =>
    {| msg_clientSequenceNumber := n; msg_op := issued x;
       msg_referenceSequenceNumber := seq |} :: messages_of (n + 1) seq rest
  end.

(** The server's echo of a message of the client with connection [c],
    sequenced as [seq]. *)
Definition echo_of (c : IDeltaConnection) (seq : Z) (message : IMessage)
    : ISequencedMessage :=
  {| sm_sequenceNumber := seq; sm_minimumSequenceNumber := 0;
     sm_type := OperationType; sm_clientId := clientId c;
     sm_clientSequenceNumber := msg_clientSequenceNumber message;
     sm_referenceSequenceNumber := msg_referenceSequenceNumber message;
     sm_op := msg_op message |}.

(** The echoes of the messages [ms], sequenced from [seq] on. *)
Fixpoint echoes (c : IDeltaConnection) (seq : Z) (ms : list IMessage)
    : list ISequencedMessage :=
  match ms with
  | [] => []
  | message :: rest => echo_of c seq message :: echoes c (seq + 1) rest
  end.

(** Sequenced messages handed to [processRemoteMessage] one after the
    other, whatever each call throws. *)
Fixpoint deliver_all (ms : list ISequencedMessage) (w : World) : World :=
  match ms with
  | [] => w
  | message :: rest => deliver_all rest (after (processRemoteMessage message w))
  end.

(** The client sequence numbers in the log, oldest first. *)
Definition log_numbers (w : World) : list Z :=
  msg_clientSequenceNumber <$> localOps (self w).

(** The log holds consecutive client sequence numbers that end just below
    the counter. *)
Definition consecutive_log (w : World) : Prop :=
  log_numbers w
  = seqZ (clientSequenceNumber (self w) - Z.of_nat (length (localOps (self w))))
         (Z.of_nat (length (localOps (self w)))).

(** The event each local write announces. *)
Definition event_of (x : LocalWrite) : MapEvent :=
  match x with
  | WSet key _ | WDelete key => valueChanged (Some key)
  | WClear => clear
  end.

(** The world in which a local write applies its operation when nothing
    is handed to the transport: the message is in the log and the counter
    has moved on. *)
Definition logged_in (op : IMapOperation) (w : World) : World :=
  set_self
    (set_localOps
       (localOps (self w)
        ++ [{| msg_clientSequenceNumber := clientSequenceNumber (self w);
               msg_op := op;
               msg_referenceSequenceNumber := sequenceNumber (self w) |}])
       (set_clientSequenceNumber (clientSequenceNumber (self w) + 1) (self w))) w.

(** The world a local write starts in once [set] has cached its object. *)
Definition with_cached (x : LocalWrite) (w : World) : World :=
  match x with
  | WSet _ value =>
    set_self
      (set_collaborativeObjects
         (cached value (collaborativeObjects (self w))) (self w)) w
  | _ => w
  end.

(** The log of local operations with the counter that numbers it. *)
Definition log_of (w : World) : list IMessage * Z :=
  (localOps (self w), clientSequenceNumber (self w)).

(** The sequence numbers of a stream of sequenced messages. *)
Definition stream_numbers (ms : list ISequencedMessage) : list Z :=
  sm_sequenceNumber <$> ms.

(** * Properties *)

(** ** What applying an operation touches *)

Lemma processOperation_outcome op w :
  outcome (processOperation op w) = Normal tt ∨
  outcome (processOperation op w) = Throw UnknownOperation.
Proof.
  unfold processOperation. repeat case_decide; cbn; auto.
Qed.

Lemma processOperation_known op w :
  op_type op = "set" ∨ op_type op = "delete" ∨ op_type op = "clear" →
  outcome (processOperation op w) = Normal tt.
Proof.
  intros H. unfold processOperation.
  repeat case_decide; cbn; try reflexivity. destruct H as [?|[?|?]]; congruence.
Qed.

Lemma processOperation_bookkeeping op w :
  bookkeeping (self (after (processOperation op w))) = bookkeeping (self w).
Proof.
  unfold processOperation. repeat case_decide; reflexivity.
Qed.

(** ** C3: the adjacency assertion of [processRemoteMessage] *)

Lemma processRemoteOperation_not_assertion message w :
  outcome (processRemoteOperation message w) ≠ Throw AssertionError.
Proof.
  unfold processRemoteOperation, bind, this. cbn.
  destruct (connection (self w)) as [c|]; [|discriminate].
  case_decide.
  - destruct (localOps (self w)); [discriminate|]. case_decide; discriminate.
  - destruct (processOperation_outcome (sm_op message) w) as [E|E];
      rewrite E; discriminate.
Qed.

Lemma processRemoteOperation_sequenceNumber message w :
  sequenceNumber (self (after (processRemoteOperation message w)))
  = sequenceNumber (self w).
Proof.
  unfold processRemoteOperation, bind, this. cbn.
  destruct (connection (self w)) as [c|]; [|reflexivity].
  case_decide.
  - destruct (localOps (self w)); [reflexivity|]. case_decide; reflexivity.
  - exact (f_equal sequenceNumber (processOperation_bookkeeping _ w)).
Qed.

(** C3.  A sequenced message whose sequence number is not the current one
    plus one makes [processRemoteMessage] throw the assertion error and
    leaves the world as it was; a message whose sequence number is the
    current one plus one never takes that branch, and the sequence number
    of the map is the message's afterwards. *)
Theorem processRemoteMessage_adjacency (message : ISequencedMessage) (w : World) :
  (sm_sequenceNumber message ≠ sequenceNumber (self w) + 1 →
   processRemoteMessage message w = (Throw AssertionError, w)) ∧
  (sm_sequenceNumber message = sequenceNumber (self w) + 1 →
   outcome (processRemoteMessage message w) ≠ Throw AssertionError ∧
   sequenceNumber (self (after (processRemoteMessage message w)))
   = sm_sequenceNumber message).
Proof.
  unfold processRemoteMessage, bind, this. cbn. split; intros H.
  - case_decide; [congruence | reflexivity].
  - case_decide; [|congruence]. case_decide.
    + split; [apply processRemoteOperation_not_assertion|].
      rewrite processRemoteOperation_sequenceNumber. reflexivity.
    + split; [discriminate | reflexivity].
Qed.

Lemma processRemoteMessage_adjacency_witness :
  processRemoteMessage
    (mkSequenced 8 0 OperationType "other" 0 0 (mkOp "clear" None None))
    (create "m")
  = (Throw AssertionError, create "m") ∧
  sequenceNumber
    (self (after (processRemoteMessage
                    (mkSequenced 1 0 "join" "other" 0 0 (mkOp "" None None))
                    (create "m")))) = 1.
Proof.
  split.
  - apply (proj1 (processRemoteMessage_adjacency
                    (mkSequenced 8 0 OperationType "other" 0 0
                       (mkOp "clear" None None)) (create "m"))).
    vm_compute. discriminate.
  - apply (proj2 (processRemoteMessage_adjacency
                    (mkSequenced 1 0 "join" "other" 0 0 (mkOp "" None None))
                    (create "m"))).
    reflexivity.
Defined.

(** ** C10: messages that carry no operation *)

(** C10.  A sequenced message whose type is not the operation type, once
    past the adjacency assertion, only sets the sequence number and the
    minimum sequence number from the message (one that fails the assertion
    changes nothing at all): Map State, the dictionary address, the heap,
    the log of local operations, the client sequence number, the cache of
    collaborative objects and the emitted events are as before. *)
Theorem processRemoteMessage_not_operation (message : ISequencedMessage) (w : World) :
  sm_type message ≠ OperationType →
  let w' := after (processRemoteMessage message w) in
  processRemoteMessage message w
  = (if decide (sequenceNumber (self w) + 1 = sm_sequenceNumber message)
     then (Normal tt,
           set_self
             (set_minimumSequenceNumber (sm_minimumSequenceNumber message)
                (set_sequenceNumber (sm_sequenceNumber message) (self w))) w)
     else (Throw AssertionError, w)) ∧
  map_state w' = map_state w ∧ heap w' = heap w ∧
  data (self w') = data (self w) ∧
  localOps (self w') = localOps (self w) ∧
  clientSequenceNumber (self w') = clientSequenceNumber (self w) ∧
  collaborativeObjects (self w') = collaborativeObjects (self w) ∧
  emitted w' = emitted w.
Proof.
  intros H. unfold processRemoteMessage, bind, this. cbn.
  case_decide; [|by cbn].
  case_decide; [congruence|]. by cbn.
Qed.

Lemma processRemoteMessage_not_operation_witness :
  sequenceNumber
    (self (after (processRemoteMessage
                    (mkSequenced 1 7 "join" "other" 0 0 (mkOp "" None None))
                    (create "m")))) = 1 ∧
  emitted (after (processRemoteMessage
                    (mkSequenced 1 7 "join" "other" 0 0 (mkOp "" None None))
                    (create "m"))) = [].
Proof.
  pose proof (processRemoteMessage_not_operation
                (mkSequenced 1 7 "join" "other" 0 0 (mkOp "" None None))
                (create "m")) as H.
  cbv zeta in H.
  destruct H as (E & _ & _ & _ & _ & _ & _ & Hemitted).
  - vm_compute. discriminate.
  - split; [by rewrite E | exact Hemitted].
Defined.

(** ** Operations as functions on Map State *)

Lemma applied_set key value d :
  applied {| op_type := "set"; op_key := key; op_value := value |} d
  = <[property key := value]> d.
Proof. unfold applied. cbn. repeat case_decide; done. Qed.

Lemma applied_delete key value d :
  applied {| op_type := "delete"; op_key := key; op_value := value |} d
  = delete (property key) d.
Proof. unfold applied. cbn. repeat case_decide; done. Qed.


Lemma map_state_store w d :
  map_state (set_heap (<[data (self w) := d]> (heap w)) w) = d.
Proof. unfold map_state, object_at. cbn. by rewrite lookup_insert_eq. Qed.

Lemma processOperation_map_state op w :
  map_state (after (processOperation op w)) = applied op (map_state w).
Proof.
  unfold processOperation, applied. repeat case_decide; cbn; try reflexivity.
  - unfold map_state, object_at. cbn. by rewrite lookup_insert_eq.
  - apply map_state_store.
  - apply map_state_store.
Qed.

Lemma processOperation_emitted op w :
  emitted (after (processOperation op w)) = emitted w ++ announced op.
Proof.
  unfold processOperation, announced. repeat case_decide; cbn; try reflexivity.
  by rewrite app_nil_r.
Qed.

(** ** What a submission touches *)

(** [submit] returns normally and only appends to the record of the
    transport, to the suspended submissions or to the unhandled
    rejections. *)
Lemma submit_frame message w :
  ∃ sub sus unh,
    submit message w
    = (Normal tt,
       set_unhandled (unhandled w ++ unh)
         (set_suspended (suspended w ++ sus)
            (set_submitted (submitted w ++ sub) w))).
Proof.
  assert (Hid : ∀ e, ∃ sub sus unh,
    (Normal tt, set_unhandled (unhandled w ++ [e]) w)
    = (Normal tt,
       set_unhandled (unhandled w ++ unh)
         (set_suspended (suspended w ++ sus)
            (set_submitted (submitted w ++ sub) w)))).
  { intros e. exists [], [], [e]. rewrite !app_nil_r. by destruct w. }
  assert (Hop : ∃ sub sus unh,
    detached (submitOp message) w
    = (Normal tt,
       set_unhandled (unhandled w ++ unh)
         (set_suspended (suspended w ++ sus)
            (set_submitted (submitted w ++ sub) w)))).
  { unfold detached, submitOp, bind, this. cbn.
    destruct (deltaManager (self w)); cbn; [|apply Hid].
    exists [message], [], []. rewrite !app_nil_r. by destruct w. }
  unfold submit, submit_body.
  case_decide; [|exact Hop].
  destruct (op_value (msg_op message)) as [value|]; [|apply Hid].
  case_decide; [|exact Hop].
  destruct (mv_value value) as [c|j]; [|apply Hid].
  unfold detached, bind, this. cbn.
  destruct (collaborativeObjects (self w) !! cmv_id c) as [o|]; [|apply Hid].
  destruct (nested_isLocal o w).
  - exists [], [(o, message)], []. rewrite !app_nil_r. by destruct w.
  - exact Hop.
Qed.

(** ** What a local operation does *)

Lemma processLocalOperation_unfold op w :
  ∃ sub sus unh,
    processLocalOperation op w
    = processOperation op
        (set_unhandled (unhandled w ++ unh)
           (set_suspended (suspended w ++ sus)
              (set_submitted (submitted w ++ sub)
                 (set_self
                    (set_localOps
                       (localOps (self w)
                        ++ [{| msg_clientSequenceNumber := clientSequenceNumber (self w);
                               msg_op := op;
                               msg_referenceSequenceNumber := sequenceNumber (self w) |}])
                       (set_clientSequenceNumber (clientSequenceNumber (self w) + 1)
                          (self w))) w)))).
Proof.
  unfold processLocalOperation, bind, this, update_this, update. cbn.
  destruct (connection (self w)) as [c|].
  - match goal with |- context [submit ?m ?w0] =>
      destruct (submit_frame m w0) as (sub & sus & unh & E) end.
    rewrite E. exists sub, sus, unh. reflexivity.
  - exists [], [], []. cbn. rewrite !app_nil_r. by destruct w.
Qed.

Lemma processLocalOperation_map_state op w :
  map_state (after (processLocalOperation op w)) = applied op (map_state w).
Proof.
  destruct (processLocalOperation_unfold op w) as (sub & sus & unh & ->).
  by rewrite processOperation_map_state.
Qed.

Lemma processLocalOperation_emitted op w :
  emitted (after (processLocalOperation op w)) = emitted w ++ announced op.
Proof.
  destruct (processLocalOperation_unfold op w) as (sub & sus & unh & ->).
  by rewrite processOperation_emitted.
Qed.

Lemma processLocalOperation_outcome op w :
  op_type op = "set" ∨ op_type op = "delete" ∨ op_type op = "clear" →
  outcome (processLocalOperation op w) = Normal tt.
Proof.
  intros H.
  destruct (processLocalOperation_unfold op w) as (sub & sus & unh & ->).
  by apply processOperation_known.
Qed.

Lemma processLocalOperation_collaborativeObjects op w :
  collaborativeObjects (self (after (processLocalOperation op w)))
  = collaborativeObjects (self w).
Proof.
  destruct (processLocalOperation_unfold op w) as (sub & sus & unh & ->).
  exact (f_equal collaborativeObjects (processOperation_bookkeeping op _)).
Qed.


(** ** C1: acknowledgements of the map's own operations *)

(** C1.  A sequenced operation whose client id is the map's own is not
    applied: [processRemoteOperation] returns normally, Map State and the
    emitted events are as before; when the log of local operations has a
    head with the message's client sequence number the head is removed and
    nothing is printed, otherwise the log is as before and the duplicate
    ack line is printed.  So a local operation followed by its ack leaves
    Map State as the operation applied once and has announced its event
    once. *)
Theorem own_ack_not_reapplied (message : ISequencedMessage) (c : IDeltaConnection)
    (w : World) :
  connection (self w) = Some c →
  sm_clientId message = clientId c →
  let w' := after (processRemoteOperation message w) in
  outcome (processRemoteOperation message w) = Normal tt ∧
  map_state w' = map_state w ∧ heap w' = heap w ∧
  data (self w') = data (self w) ∧ emitted w' = emitted w ∧
  match localOps (self w) with
  | head :: rest =>
    if decide (msg_clientSequenceNumber head = sm_clientSequenceNumber message)
    then localOps (self w') = rest ∧ console w' = console w
    else localOps (self w') = localOps (self w) ∧
         console w' = console w ++ [duplicate_ack (sm_clientSequenceNumber message)]
  | [] =>
    localOps (self w') = [] ∧
    console w' = console w ++ [duplicate_ack (sm_clientSequenceNumber message)]
  end ∧
  ∀ op w0, w = after (processLocalOperation op w0) →
    map_state w' = applied op (map_state w0) ∧
    emitted w' = emitted w0 ++ announced op.
Proof.
  intros Hc Hid w'.
  assert (Hframe : outcome (processRemoteOperation message w) = Normal tt ∧
    map_state w' = map_state w ∧ heap w' = heap w ∧
    data (self w') = data (self w) ∧ emitted w' = emitted w ∧
    match localOps (self w) with
    | head :: rest =>
      if decide (msg_clientSequenceNumber head = sm_clientSequenceNumber message)
      then localOps (self w') = rest ∧ console w' = console w
      else localOps (self w') = localOps (self w) ∧
           console w' = console w ++ [duplicate_ack (sm_clientSequenceNumber message)]
    | [] =>
      localOps (self w') = [] ∧
      console w' = console w ++ [duplicate_ack (sm_clientSequenceNumber message)]
    end).
  { subst w'. unfold processRemoteOperation, bind, this. cbn.
    rewrite Hc. case_decide; [|congruence].
    destruct (localOps (self w)) as [|head rest] eqn:Hlog; cbn.
    - by rewrite Hlog.
    - case_decide; cbn; [done|]. by rewrite Hlog. }
  destruct Hframe as (Hout & Hstate & Hheap & Hdata & Hemitted & Hlog).
  repeat split; try assumption.
  - rewrite Hstate. subst w. apply processLocalOperation_map_state.
  - rewrite Hemitted. subst w. apply processLocalOperation_emitted.
Qed.

Lemma own_ack_not_reapplied_witness :
  let w := after (processLocalOperation (Sample.set_op "a" 1) Sample.attached) in
  let w' := after (processRemoteOperation (Sample.echo 1 0 (Sample.set_op "a" 1)) w) in
  map_state w' = map_state w ∧ emitted w' = [valueChanged (Some "a")] ∧
  localOps (self w') = [].
Proof.
  intros w w'.
  destruct (own_ack_not_reapplied (Sample.echo 1 0 (Sample.set_op "a" 1))
              Sample.created w eq_refl eq_refl)
    as (_ & Hstate & _ & _ & Hemitted & Hlog & _).
  split; [exact Hstate|]. split; [exact Hemitted|]. exact (proj1 Hlog).
Defined.

(** ** C2: a read after a local write *)

Lemma set_body_unfold key value w :
  set_body key value w
  = processLocalOperation
      {| op_type := "set"; op_key := Some key; op_value := Some (stored value) |}
      (set_self
         (set_collaborativeObjects
            (cached value (collaborativeObjects (self w))) (self w)) w).
Proof. destruct value, w as [[] ]; reflexivity. Qed.





(** ** Relations every method respects *)

Section Respect.
Variable R : World → World → Prop.
Hypothesis R_refl : ∀ w, R w w.
Hypothesis R_trans : ∀ w1 w2 w3, R w1 w2 → R w2 w3 → R w1 w3.

Lemma respects_ret {A} (a : A) : respects R (ret a).
Proof. intros w. apply R_refl. Qed.

Lemma respects_throw {A} (e : JsError) : respects R (@throw A e).
Proof. intros w. apply R_refl. Qed.

Lemma respects_this : respects R this.
Proof. intros w. apply R_refl. Qed.

Lemma respects_update (f : World → World) :
  (∀ w, R w (f w)) → respects R (update f).
Proof. intros H w. apply H. Qed.

Lemma respects_bind {A B} (m : M A) (k : A → M B) :
  respects R m → (∀ a, respects R (k a)) → respects R (bind m k).
Proof.
  intros Hm Hk w. unfold bind. specialize (Hm w).
  destruct (m w) as [[a|e] w1]; cbn in *; [|exact Hm].
  eapply R_trans; [exact Hm | apply Hk].
Qed.

Lemma respects_detached (body : M unit) :
  (∀ w u, R w (set_unhandled u w)) →
  respects R body → respects R (detached body).
Proof.
  intros Hu Hb w. unfold detached. specialize (Hb w).
  destruct (body w) as [[a|e] w1]; cbn in *; [exact Hb|].
  eapply R_trans; [exact Hb | apply Hu].
Qed.

(** The steps every relation below has to be checked on. *)
Hypothesis R_self : ∀ w m,
  data m = data (self w) → connection m = connection (self w) →
  R w (set_self m w).
Hypothesis R_emitted : ∀ w v, R w (set_emitted v w).
Hypothesis R_submitted : ∀ w v, R w (set_submitted v w).
Hypothesis R_written : ∀ w v, R w (set_written (written w ++ v) w).
Hypothesis R_console : ∀ w v, R w (set_console v w).
Hypothesis R_awaiting : ∀ w v, R w (set_awaiting v w).
Hypothesis R_attaching : ∀ w v, R w (set_attaching v w).
Hypothesis R_suspended : ∀ w v, R w (set_suspended v w).
Hypothesis R_nested_attached : ∀ w v, R w (set_nested_attached v w).
Hypothesis R_unhandled : ∀ w v, R w (set_unhandled v w).
Hypothesis R_fresh : ∀ w, R w (set_next_addr (S (next_addr w)) w).
Hypothesis R_store : ∀ w d,
  R w (set_heap (<[data (self w) := d]> (heap w)) w).
Hypothesis R_allocate : ∀ w d,
  R w (set_next_addr (S (next_addr w))
         (set_heap (<[next_addr w := d]> (heap w)) w)).
Hypothesis R_data : ∀ w d,
  R w (set_self (set_data (next_addr w) (self w))
         (set_next_addr (S (next_addr w))
            (set_heap (<[next_addr w := d]> (heap w)) w))).

Lemma respects_emit e : respects R (emit e).
Proof. apply respects_update. intros w. apply R_emitted. Qed.

Lemma respects_setCore key value : respects R (setCore key value).
Proof.
  apply respects_bind; [|intros _; apply respects_emit].
  apply respects_update. intros w. apply R_store.
Qed.

Lemma respects_deleteCore key : respects R (deleteCore key).
Proof.
  apply respects_bind; [|intros _; apply respects_emit].
  apply respects_update. intros w. apply R_store.
Qed.

Lemma respects_clearCore : respects R clearCore.
Proof.
  intros w. unfold clearCore, bind, allocate, update_this, update, emit. cbn.
  eapply R_trans; [apply (R_data w ∅)|]. apply R_emitted.
Qed.

Lemma respects_processOperation op : respects R (processOperation op).
Proof.
  unfold processOperation. repeat case_decide;
    auto using respects_clearCore, respects_deleteCore, respects_setCore,
      respects_throw.
Qed.

Lemma respects_submitOp message : respects R (submitOp message).
Proof.
  apply respects_bind; [apply respects_this|]. intros m.
  destruct (deltaManager m); [|apply respects_throw].
  apply respects_update. intros w. apply R_submitted.
Qed.

Lemma respects_submit message : respects R (submit message).
Proof.
  apply respects_detached; [exact R_unhandled|].
  unfold submit_body. case_decide; [|apply respects_submitOp].
  destruct (op_value (msg_op message)) as [value|]; [|apply respects_throw].
  case_decide; [|apply respects_submitOp].
  destruct (mv_value value) as [c|j]; [|apply respects_throw].
  apply respects_bind; [apply respects_this|]. intros m.
  destruct (collaborativeObjects m !! cmv_id c) as [o|]; [|apply respects_throw].
  intros w. destruct (nested_isLocal o w).
  - apply R_suspended.
  - apply respects_submitOp.
Qed.

Lemma respects_submit_all ops : respects R (submit_all ops).
Proof.
  induction ops as [|localOp rest IH]; [apply respects_ret|].
  apply respects_bind; [apply respects_submit | intros _; exact IH].
Qed.

Lemma respects_processLocalOperation op : respects R (processLocalOperation op).
Proof.
  apply respects_bind; [apply respects_this|]. intros m.
  apply respects_bind.
  { apply respects_update. intros w. by apply R_self. }
  intros _. apply respects_bind.
  { apply respects_update. intros w. by apply R_self. }
  intros _. apply respects_bind.
  { destruct (connection m); [apply respects_submit | apply respects_ret]. }
  intros _. apply respects_processOperation.
Qed.

Lemma respects_set_body key value : respects R (set_body key value).
Proof.
  apply respects_bind; [|intros v; apply respects_processLocalOperation].
  destruct value as [o|j]; [|apply respects_ret].
  apply respects_bind; [|intros _; apply respects_ret].
  apply respects_update. intros w. by apply R_self.
Qed.

Lemma respects_get_body key : respects R (get_body key).
Proof.
  intros w. unfold get_body.
  destruct (map_state w !! key) as [[value|]|]; try apply R_refl.
  case_decide; [|apply R_refl].
  destruct (mv_value value) as [c|j]; [|apply R_refl].
  destruct (collaborativeObjects (self w) !! cmv_id c); [apply R_refl|].
  destruct (registry (self w)) as [r|]; [|apply R_refl].
  destruct (getExtension r (cmv_type c)); [|apply R_refl]. cbn.
  match goal with |- R _ (set_next_addr _ ?w1) =>
    apply (R_trans _ w1); [by apply R_self | apply (R_fresh w1)] end.
Qed.

Lemma respects_snapshot : respects R snapshot.
Proof.
  apply respects_bind; [apply respects_this|]. intros m.
  apply respects_bind; [intros w; apply R_allocate|]. intros copy.
  destruct (services m); [|apply respects_throw].
  apply respects_update. intros w. apply R_written.
Qed.

Lemma respects_body_of c : respects R (body_of c).
Proof.
  destruct c; cbn; apply respects_bind; try (intros; apply respects_ret).
  - intros w. apply R_refl.
  - apply respects_get_body.
  - intros w. apply R_refl.
  - apply respects_set_body.
  - apply respects_processLocalOperation.
  - apply respects_processLocalOperation.
Qed.

Lemma respects_processRemoteOperation message :
  respects R (processRemoteOperation message).
Proof.
  apply respects_bind; [apply respects_this|]. intros m.
  destruct (connection m); [|apply respects_throw].
  case_decide; [|apply respects_processOperation].
  destruct (localOps m) as [|head rest].
  - apply respects_update. intros w. apply R_console.
  - case_decide; apply respects_update; intros w;
      [by apply R_self | apply R_console].
Qed.

Lemma respects_processRemoteMessage message :
  respects R (processRemoteMessage message).
Proof.
  apply respects_bind; [apply respects_this|]. intros m.
  case_decide; [|apply respects_throw].
  apply respects_bind.
  { apply respects_update. intros w. by apply R_self. }
  intros _. apply respects_bind.
  { apply respects_update. intros w. by apply R_self. }
  intros _. case_decide;
    [apply respects_processRemoteOperation | apply respects_ret].
Qed.

Lemma respects_listenForUpdates : respects R listenForUpdates.
Proof.
  apply respects_bind; [apply respects_this|]. intros m.
  destruct (services m); [|apply respects_throw].
  apply respects_update. intros w. by apply R_self.
Qed.

Lemma respects_attach_call s r : respects R (attach_call s r).
Proof.
  apply respects_bind.
  { apply respects_update. intros w. by apply R_self. }
  intros _. apply respects_bind.
  { apply respects_update. intros w. by apply R_self. }
  intros _. apply respects_update. intros w. apply R_attaching.
Qed.

Lemma attach_connected_after c w :
  R (connected c w) (after (attach_connected c w)).
Proof.
  unfold attach_connected, bind at 1, update_this, update. cbn.
  fold (connected c w). generalize (connected c w). clear w.
  change (respects R
    (if existing c then throw AssertionError
     else (listenForUpdates ;; m <- this ;; submit_all (localOps m)))).
  destruct (existing c); [apply respects_throw|].
  apply respects_bind; [apply respects_listenForUpdates|]. intros _.
  apply respects_bind; [apply respects_this|]. intros m.
  apply respects_submit_all.
Qed.

Lemma settle_load_after (body : M unit) w :
  respects R body → R w (settle_load body w).
Proof.
  intros Hb. unfold settle_load. specialize (Hb w).
  destruct (body w) as [[a|e] w1]; cbn in *;
    (eapply R_trans; [exact Hb | by apply R_self]).
Qed.

Lemma respects_load_finish rawSnapshot : respects R (load_finish rawSnapshot).
Proof.
  apply respects_bind.
  { destruct rawSnapshot; [apply respects_ret | apply respects_ret
                          | apply respects_throw]. }
  intros parsed w.
  change (R w (after
    ((update_this (set_sequenceNumber (fst parsed)) ;; listenForUpdates)
       (set_self (set_data (next_addr w) (self w))
          (set_next_addr (S (next_addr w))
             (set_heap (<[next_addr w := snd parsed]> (heap w)) w)))))).
  eapply R_trans; [apply (R_data w (snd parsed))|].
  apply respects_bind; [|intros _; apply respects_listenForUpdates].
  apply respects_update. intros w0. by apply R_self.
Qed.

Lemma load_connected_after c w :
  R (connected c w) (load_connected c w).
Proof.
  unfold load_connected. fold (connected c w).
  destruct (existing c); [by apply R_self|].
  apply settle_load_after, respects_load_finish.
Qed.

(** Every event leaves a world related to the one it entered. *)
Lemma step_respects e w o w' :
  (∀ c w, R (connected c w) (connected c (set_attaching (pred (attaching w)) w))) →
  step e w = Some (o, w') → R (entering e w) w'.
Proof.
  intros Hconn. destruct e; unfold step; cbv zeta; cbn [entering].
  - intros [= <- <-]. apply R_awaiting.
  - destruct (awaiting w) as [|c rest]; [discriminate|].
    destruct (loadingP (self w)); try discriminate.
    + intros [= <- <-]. eapply R_trans; [apply R_awaiting|].
      apply respects_body_of.
    + intros [= <- <-]. apply R_awaiting.
  - intros [= <- <-]. apply respects_snapshot.
  - intros [= <- <-]. apply respects_attach_call.
  - destruct (attaching w) as [|n] eqn:Hn; [discriminate|].
    intros [= <- <-].
    eapply R_trans; [|apply (attach_connected_after c (set_attaching n w))].
    specialize (Hconn c w). rewrite Hn in Hconn. exact Hconn.
  - destruct (loadingP (self w)); try discriminate.
    intros [= <- <-]. apply load_connected_after.
  - destruct (loadingP (self w)); try discriminate.
    intros [= <- <-]. apply settle_load_after, respects_load_finish.
  - destruct (loadingP (self w)); try discriminate;
      intros [= <- <-]; by apply R_self.
  - destruct (deltaManager (self w)); [|discriminate].
    intros [= <- <-].
    pose proof (respects_processRemoteMessage message w) as H.
    destruct (processRemoteMessage message w) as [[a|err] w1]; cbn in *;
      [exact H|]. eapply R_trans; [exact H | apply R_unhandled].
  - destruct (suspended w !! i) as [[obj message]|]; [|discriminate].
    intros [= <- <-].
    eapply R_trans; [apply R_suspended|].
    eapply R_trans; [apply R_nested_attached|].
    apply respects_detached; [exact R_unhandled | apply respects_submitOp].
  - destruct (suspended w !! i); [|discriminate].
    intros [= <- <-].
    eapply R_trans; [apply R_suspended | apply R_unhandled].
Qed.
End Respect.

(** ** C9: [isLocal] and the connection *)






(** ** C7: the blob of [snapshot] *)

Lemma grew_from_refl w : grew_from w w.
Proof. intros H. repeat split; auto. Qed.

Lemma grew_from_trans w1 w2 w3 :
  grew_from w1 w2 → grew_from w2 w3 → grew_from w1 w3.
Proof.
  intros H12 H23 H1.
  destruct (H12 H1) as (H2 & Hn12 & Hd12 & Hh12 & Hw12).
  destruct (H23 H2) as (H3 & Hn23 & Hd23 & Hh23 & Hw23).
  unfold allocated in *. repeat split.
  - exact H3.
  - lia.
  - lia.
  - intros a Ha Hne. rewrite Hh23; [by apply Hh12 | lia | lia].
  - by etrans.
Qed.

Lemma step_grew_from e w o w' :
  step e w = Some (o, w') → grew_from w w'.
Proof.
  intros Hstep.
  apply (grew_from_trans _ (entering e w)).
  { destruct e; try apply grew_from_refl; intros H; repeat split; auto. }
  revert Hstep.
  apply (step_respects grew_from grew_from_refl grew_from_trans);
    unfold grew_from, allocated; cbn; intros;
    repeat split; auto; try lia; try (by apply prefix_app_r);
    intros; rewrite lookup_insert_ne; first [done | lia | congruence].
Qed.

Lemma run_grew_from es : ∀ w os w',
  run es w = Some (os, w') → grew_from w w'.
Proof.
  induction es as [|e rest IH]; intros w os w'; cbn.
  - intros [= <- <-]. apply grew_from_refl.
  - destruct (step e w) as [[o w1]|] eqn:Hstep; [|discriminate].
    destruct (run rest w1) as [[os' w2]|] eqn:Hrun; [|discriminate].
    intros [= <- <-].
    eapply grew_from_trans; [by eapply step_grew_from | by eapply IH].
Qed.

(** In every run from a new map the dictionary of the map is allocated. *)
Lemma run_allocated id s r es os w :
  run es (new_Map id s r) = Some (os, w) → allocated w.
Proof.
  intros Hrun. apply run_grew_from in Hrun.
  apply Hrun. unfold allocated. cbn. lia.
Qed.

(** What [snapshot] does when the services are there. *)
Lemma snapshot_unfold w s :
  services (self w) = Some s →
  snapshot w
  = (Normal tt,
     set_written
       (written w ++ [(map_id (self w),
                       {| snap_sequenceNumber := sequenceNumber (self w);
                          snap_snapshot := next_addr w |})])
       (set_next_addr (S (next_addr w))
          (set_heap (<[next_addr w := map_state w]> (heap w)) w))).
Proof.
  intros H. unfold snapshot, bind, this, allocate. cbn. by rewrite H.
Qed.

(** C7.  The blob [snapshot] hands to the storage service holds the
    sequence number of the map and a dictionary of its own with the
    entries of Map State.  Whatever happens to the map afterwards (local
    sets, deletes and clears, remote operations, or any other event), the
    record of written blobs still has this blob at its place and the
    dictionary of the blob still holds the entries Map State had when
    [snapshot] was called. *)
Theorem snapshot_blob_is_a_copy (w : World) (s : ICollaborationServices)
    (es : list Event) (os : list Observation) (w' : World) :
  allocated w →
  services (self w) = Some s →
  run es (after (snapshot w)) = Some (os, w') →
  let blob := {| snap_sequenceNumber := sequenceNumber (self w);
                 snap_snapshot := next_addr w |} in
  outcome (snapshot w) = Normal tt ∧
  written (after (snapshot w)) = written w ++ [(map_id (self w), blob)] ∧
  object_at (snap_snapshot blob) (after (snapshot w)) = map_state w ∧
  written w' !! length (written w) = Some (map_id (self w), blob) ∧
  object_at (snap_snapshot blob) w' = map_state w.
Proof.
  intros Hw Hs Hrun blob. rewrite (snapshot_unfold w s Hs) in *. cbn in *.
  apply run_grew_from in Hrun.
  destruct Hrun as (_ & _ & _ & Hheap & Hwritten).
  { unfold allocated in *. cbn. lia. }
  cbn in *. repeat split.
  - unfold object_at. cbn. by rewrite lookup_insert_eq.
  - destruct Hwritten as [k ->].
    rewrite <- app_assoc. rewrite lookup_app_r; [|done].
    by rewrite Nat.sub_diag.
  - unfold object_at. rewrite Hheap.
    + by rewrite lookup_insert_eq.
    + lia.
    + unfold allocated in Hw. lia.
Qed.

Lemma snapshot_blob_is_a_copy_witness :
  let w := after (set_body "a" (UPlain (JNum 1)) Sample.attached) in
  match run [Invoke (CallSet "a" (UPlain (JNum 2))); Continue;
             Invoke CallClear; Continue;
             Deliver (mkSequenced 1 0 OperationType "other" 0 0
                        (Sample.set_op "b" 3))]
          (after (snapshot w)) with
  | Some (_, w') =>
    map_state w' !! "a" = None ∧
    object_at (next_addr w) w' !! "a"
    = Some (Some {| mv_type := "Plain"; mv_value := PJson (JNum 1) |})
  | None => False
  end.
Proof.
  intros w.
  destruct (run _ (after (snapshot w))) as [[os w']|] eqn:Hrun.
  - assert (Hw : allocated w) by (unfold allocated; vm_compute; lia).
    destruct (snapshot_blob_is_a_copy w Sample.the_services _ os w'
                Hw eq_refl Hrun) as (_ & _ & _ & _ & H).
    cbn [snap_snapshot] in H. rewrite H. clear H.
    vm_compute in Hrun. injection Hrun as _ <-.
    split; vm_compute; reflexivity.
  - vm_compute in Hrun. discriminate Hrun.
Defined.

(** ** C5: [attach] and the [existing] flag *)

Lemma submit_all_frame ops : ∀ w,
  ∃ sub sus unh,
    submit_all ops w
    = (Normal tt,
       set_unhandled (unhandled w ++ unh)
         (set_suspended (suspended w ++ sus)
            (set_submitted (submitted w ++ sub) w))).
Proof.
  induction ops as [|localOp rest IH]; intros w; cbn.
  - exists [], [], []. rewrite !app_nil_r. by destruct w.
  - unfold bind. destruct (submit_frame localOp w) as (sub1 & sus1 & unh1 & ->).
    match goal with |- context [submit_all rest ?w1] =>
      destruct (IH w1) as (sub2 & sus2 & unh2 & ->) end.
    exists (sub1 ++ sub2), (sus1 ++ sus2), (unh1 ++ unh2). cbn.
    by rewrite !app_assoc.
Qed.



(** ** C4 and C6: the order of submissions *)


(** C4, the code at the failing input.  On an attached map, the set of a
    collaborative object that is still local (message 0) waits for the
    object's [attach]; the plain set issued after it (message 1) is handed
    to the delta manager at once; message 0 follows when the [attach]
    resolves.  The transport receives 1 before 0. *)
Theorem later_set_overtakes_reference_set :
  (λ w, (Overtaking.logged w, Overtaking.sent w, Overtaking.held w))
    <$> final Overtaking.two_sets Sample.attached
  = Some ([0; 1], [1], [0]) ∧
  (λ w, (Overtaking.logged w, Overtaking.sent w, Overtaking.held w))
    <$> final (Overtaking.two_sets ++ [NestedAttachResolved 0]) Sample.attached
  = Some ([0; 1], [1; 0], []).
Proof. split; vm_compute; reflexivity. Qed.

(** What holds of the drain: when no entry of the log is the set of a
    collaborative value, a successful [attach] hands the entries to the
    delta manager in the order of the log and suspends nothing. *)
Lemma submit_plain message w dm :
  deltaManager (self w) = Some dm →
  plain_message message →
  submit message w = (Normal tt, set_submitted (submitted w ++ [message]) w).
Proof.
  intros Hdm Hplain.
  assert (Hop : detached (submitOp message) w
                = (Normal tt, set_submitted (submitted w ++ [message]) w)).
  { unfold detached, submitOp, bind, this. cbn. by rewrite Hdm. }
  unfold submit, submit_body. case_decide; [|exact Hop].
  destruct Hplain as [Hne | (value & Hvalue & Htype)]; [congruence|].
  rewrite Hvalue. case_decide; [congruence | exact Hop].
Qed.

Lemma submit_all_plain ops : ∀ w dm,
  deltaManager (self w) = Some dm →
  Forall plain_message ops →
  submit_all ops w = (Normal tt, set_submitted (submitted w ++ ops) w).
Proof.
  induction ops as [|localOp rest IH]; intros w dm Hdm Hplain; cbn.
  - rewrite app_nil_r. by destruct w.
  - apply Forall_cons in Hplain as [Hfirst Hrest]. unfold bind.
    rewrite (submit_plain _ _ dm Hdm Hfirst).
    rewrite (IH _ dm); [|exact Hdm|exact Hrest]. cbn.
    by rewrite <- app_assoc.
Qed.

(** X28.  A successful [attach] of a map whose log holds no set of a
    collaborative object hands every entry of the log to the delta
    manager during the call, in the order of the log, suspends nothing
    and keeps the log as it is. *)
Lemma attach_plain_log_in_order s r c w :
  existing c = false →
  Forall plain_message (localOps (self w)) →
  let res := attach_connected c (after (attach_call s r w)) in
  outcome res = Normal tt ∧
  submitted (after res) = submitted w ++ localOps (self w) ∧
  suspended (after res) = suspended w ∧
  localOps (self (after res)) = localOps (self w).
Proof.
  intros Hnew Hplain.
  unfold attach_connected, attach_call, listenForUpdates,
    bind, this, update_this, update. cbn. rewrite Hnew. cbn.
  erewrite submit_all_plain; [done | reflexivity | exact Hplain].
Qed.

(** C6, the code at the failing input.  On a local map with the same two
    sets in its log, [attach] returns normally having handed only message
    1 to the delta manager; message 0 is still waiting for the nested
    object's [attach] and reaches the transport after message 1.  The log
    itself keeps both entries. *)
Theorem attach_drains_log_out_of_order :
  (λ r, (last (fst r), Overtaking.logged (snd r), Overtaking.sent (snd r),
         Overtaking.held (snd r)))
    <$> run (Overtaking.two_sets
             ++ [InvokeAttach Sample.the_services Sample.the_registry;
                 AttachConnected Sample.created]) (create "m")
  = Some (Some (AttachSettled (Normal tt)), [0; 1], [1], [0]) ∧
  (λ w, (Overtaking.logged w, Overtaking.sent w, Overtaking.held w))
    <$> final (Overtaking.two_sets
               ++ [InvokeAttach Sample.the_services Sample.the_registry;
                   AttachConnected Sample.created;
                   NestedAttachResolved 0]) (create "m")
  = Some ([0; 1], [1; 0], []).
Proof. split; vm_compute; reflexivity. Qed.

(** ** C8: what waits for the initial load *)

(** The six asynchronous methods do nothing at the call but queue their
    body, and no queued body runs while [loadingP] is pending. *)
Lemma body_waits_for_load (c : Call) (w : World) :
  step (Invoke c) w = Some (Quiet, set_awaiting (awaiting w ++ [c]) w) ∧
  (loadingP (self w) = Connecting ∨ loadingP (self w) = Reading →
   step Continue w = None).
Proof.
  split; [reflexivity|]. intros H. cbn.
  destruct (awaiting w); [reflexivity|]. by destruct H as [-> | ->].
Qed.

(** C8, the code at the failing input.  On a map built by [load] against
    a document whose stored snapshot is [{x: "y"}] at sequence number 5,
    a [get] called before the load is over is held back, but a [snapshot]
    called then returns at once and writes the blob
    [{sequenceNumber: 0, snapshot: {}}]; once the load is over the map is
    at sequence number 5 with the stored entry. *)
Theorem snapshot_does_not_wait_for_load :
  let stored_x := Some {| mv_type := "Plain"; mv_value := PJson (JStr "y") |} in
  let w0 := load "m" Sample.the_services Sample.the_registry in
  fst <$> run [Invoke (CallGet "x"); Continue] w0 = None ∧
  (λ r, (fst r, written (snd r),
         (λ b, object_at (snap_snapshot b.2) (snd r)) <$> written (snd r),
         sequenceNumber (self (snd r)), map_state (snd r)))
    <$> run [InvokeSnapshot; LoadConnected Sample.found;
             LoadRead (Blob 5 {[ "x" := stored_x ]})] w0
  = Some ([SnapshotReturned (Normal tt); Quiet; Quiet],
          [("m", {| snap_sequenceNumber := 0; snap_snapshot := 1%nat |})],
          [∅], 5, {[ "x" := stored_x ]}).
Proof. split; vm_compute; reflexivity. Qed.

(** ** Calls on a map whose load is over *)

(** On a map whose [loadingP] is resolved and on which no other call is
    waiting, a call followed by the run of its continuation is the body
    of the method. *)
Lemma invoke_then_continue (c : Call) (w : World) :
  loadingP (self w) = Resolved →
  awaiting w = [] →
  run [Invoke c; Continue] w
  = Some ([Quiet; Settled c (outcome (body_of c w))], after (body_of c w)).
Proof.
  intros Hload Hqueue. cbn -[body_of]. rewrite Hqueue, Hload. cbn -[body_of].
  replace (set_awaiting [] (set_awaiting [c] w)) with w; [reflexivity|].
  destruct w. cbn in Hqueue. by rewrite Hqueue.
Qed.

(** * Further properties *)

(** ** The request handler of the code loader *)

Lemma js_drop_length s : ∀ n, (String.length (js_drop n s) ≤ String.length s)%nat.
Proof.
  induction s as [|a s IH]; intros [|n]; cbn; try lia.
  specialize (IH n). lia.
Qed.

Lemma js_drop_all s : ∀ n, (String.length s ≤ n)%nat → js_drop n s = "".
Proof.
  induction s as [|a s IH]; intros [|n] H; cbn in *; try reflexivity; try lia.
  apply IH. lia.
Qed.

Lemma js_take_all s : ∀ n, (String.length s ≤ n)%nat → js_take n s = s.
Proof.
  induction s as [|a s IH]; intros [|n] H; cbn in *; try reflexivity; try lia.
  f_equal. apply IH. lia.
Qed.

(** X1.  Whatever the url of the request, the url handed on to the data
    store is empty: [trimmed.substr(1 + trimmed.length)] starts past the
    end of [trimmed]. *)
Theorem forwarded_url_is_empty (url : string) : forwarded_url url = "".
Proof.
  unfold forwarded_url, substr_from. apply js_drop_all. lia.
Qed.

(** X2.  A url with no slash after its first character names its data
    store by everything after that first character, and the root map
    when nothing follows. *)
Theorem componentId_without_second_slash (url : string) :
  includes "/"%char url 1 = false →
  trimmed url = substr_from 1 url ∧
  componentId url
  = (if decide (substr_from 1 url = "") then rootMapId else substr_from 1 url).
Proof.
  intros H.
  assert (Ht : trimmed url = substr_from 1 url).
  { unfold trimmed, substr, substr_from. rewrite H. cbn [negb].
    change (js_drop 0 (js_drop 1 url)) with (js_drop 1 url).
    rewrite Nat2Z.id. apply js_take_all. apply js_drop_length. }
  split; [exact Ht|]. unfold componentId. by rewrite Ht.
Qed.

Lemma componentId_without_second_slash_witness :
  componentId "/insights" = "insights".
Proof.
  destruct (componentId_without_second_slash "/insights" eq_refl) as [_ H].
  rewrite H. reflexivity.
Defined.

(** X3.  A url that starts with a slash and has another slash further on
    always goes to the root map: the length handed to [substr] is
    [url.indexOf("/")], which is 0 for such a url, so [trimmed] is empty
    whatever stands between the two slashes. *)
Theorem componentId_with_second_slash (rest : string) :
  includes "/"%char (String "/"%char rest) 1 = true →
  trimmed (String "/"%char rest) = "" ∧
  componentId (String "/"%char rest) = rootMapId.
Proof.
  intros H.
  assert (Ht : trimmed (String "/"%char rest) = "").
  { unfold trimmed, substr. rewrite H. reflexivity. }
  split; [exact Ht|]. unfold componentId. by rewrite Ht.
Qed.

Lemma componentId_with_second_slash_witness :
  componentId "/insights/summary" = "root".
Proof.
  exact (proj2 (componentId_with_second_slash "insights/summary" eq_refl)).
Defined.

(** ** Operations of other clients *)

(** A sequenced operation of another client that passes the adjacency
    assertion: the two numbers are set, then the operation is applied. *)
Lemma processRemoteMessage_remote message c w :
  sm_sequenceNumber message = sequenceNumber (self w) + 1 →
  sm_type message = OperationType →
  connection (self w) = Some c →
  sm_clientId message ≠ clientId c →
  processRemoteMessage message w
  = processOperation (sm_op message)
      (set_self
         (set_minimumSequenceNumber (sm_minimumSequenceNumber message)
            (set_sequenceNumber (sm_sequenceNumber message) (self w))) w).
Proof.
  intros Hseq Htype Hc Hid.
  unfold processRemoteMessage, bind, this, update_this, update. cbn.
  case_decide; [|congruence]. case_decide; [|congruence].
  unfold processRemoteOperation, bind, this. cbn. rewrite Hc.
  case_decide; [congruence|]. reflexivity.
Qed.

Lemma processOperation_unknown op w :
  ¬ known_operation op → processOperation op w = (Throw UnknownOperation, w).
Proof.
  unfold known_operation, processOperation. intros H.
  repeat case_decide; try reflexivity; exfalso; apply H; auto.
Qed.

(** X4.  A sequenced operation of another client whose type is one of set,
    delete and clear, delivered in sequence: [processRemoteMessage]
    returns normally, Map State is the operation applied to what it was,
    exactly the operation's event is emitted, the sequence numbers are the
    message's and the log of local operations is untouched. *)
Theorem remote_operation_applied (message : ISequencedMessage)
    (c : IDeltaConnection) (w : World) :
  sm_sequenceNumber message = sequenceNumber (self w) + 1 →
  sm_type message = OperationType →
  connection (self w) = Some c →
  sm_clientId message ≠ clientId c →
  known_operation (sm_op message) →
  let w' := after (processRemoteMessage message w) in
  outcome (processRemoteMessage message w) = Normal tt ∧
  map_state w' = applied (sm_op message) (map_state w) ∧
  emitted w' = emitted w ++ announced (sm_op message) ∧
  sequenceNumber (self w') = sm_sequenceNumber message ∧
  minimumSequenceNumber (self w') = sm_minimumSequenceNumber message ∧
  localOps (self w') = localOps (self w).
Proof.
  intros Hseq Htype Hc Hid Hknown w'. subst w'.
  rewrite (processRemoteMessage_remote message c w Hseq Htype Hc Hid).
  split; [by apply processOperation_known|].
  split; [by rewrite processOperation_map_state|].
  split; [by rewrite processOperation_emitted|].
  match goal with |- context [processOperation ?op ?w1] =>
    pose proof (processOperation_bookkeeping op w1) as H end.
  repeat split.
  - exact (f_equal sequenceNumber H).
  - exact (f_equal minimumSequenceNumber H).
  - exact (f_equal localOps H).
Qed.

Lemma remote_operation_applied_witness :
  let message := mkSequenced 1 0 OperationType "other" 0 0 (Sample.set_op "k" 5) in
  map_state (after (processRemoteMessage message Sample.attached)) !! "k"
  = Some (Some {| mv_type := "Plain"; mv_value := PJson (JNum 5) |}).
Proof.
  intros message.
  destruct (remote_operation_applied message Sample.created Sample.attached)
    as (_ & H & _); [reflexivity | reflexivity | reflexivity
                    | vm_compute; discriminate | left; reflexivity |].
  rewrite H. vm_compute. reflexivity.
Defined.

Lemma processRemoteMessage_no_gap message w :
  sm_sequenceNumber message = sequenceNumber (self w) + 1 →
  outcome (processRemoteMessage message w) ≠ Throw AssertionError.
Proof.
  intros H. unfold processRemoteMessage, bind, this. cbn.
  case_decide; [|congruence].
  case_decide; [apply processRemoteOperation_not_assertion | discriminate].
Qed.

(** X5.  A sequenced operation of another client whose type is none of
    set, delete and clear, delivered in sequence: [processRemoteMessage]
    throws the unknown operation error after it has taken the message's
    sequence numbers; Map State, the events and the log are untouched, and
    the message with the next sequence number still passes the adjacency
    assertion. *)
Theorem remote_unknown_operation (message next : ISequencedMessage)
    (c : IDeltaConnection) (w : World) :
  sm_sequenceNumber message = sequenceNumber (self w) + 1 →
  sm_type message = OperationType →
  connection (self w) = Some c →
  sm_clientId message ≠ clientId c →
  ¬ known_operation (sm_op message) →
  sm_sequenceNumber next = sm_sequenceNumber message + 1 →
  let w' := after (processRemoteMessage message w) in
  outcome (processRemoteMessage message w) = Throw UnknownOperation ∧
  sequenceNumber (self w') = sm_sequenceNumber message ∧
  minimumSequenceNumber (self w') = sm_minimumSequenceNumber message ∧
  map_state w' = map_state w ∧ emitted w' = emitted w ∧
  localOps (self w') = localOps (self w) ∧
  outcome (processRemoteMessage next w') ≠ Throw AssertionError.
Proof.
  intros Hseq Htype Hc Hid Hunknown Hnext w'. subst w'.
  rewrite (processRemoteMessage_remote message c w Hseq Htype Hc Hid).
  rewrite processOperation_unknown by exact Hunknown.
  cbn [outcome after fst snd].
  repeat split; try reflexivity.
  apply processRemoteMessage_no_gap. cbn. exact Hnext.
Qed.

Lemma remote_unknown_operation_witness :
  let message := mkSequenced 1 0 OperationType "other" 0 0 (mkOp "move" None None) in
  let next := mkSequenced 2 0 OperationType "other" 1 0 (Sample.set_op "k" 5) in
  outcome (processRemoteMessage message Sample.attached) = Throw UnknownOperation ∧
  outcome (processRemoteMessage next
             (after (processRemoteMessage message Sample.attached)))
  ≠ Throw AssertionError.
Proof.
  intros message next.
  destruct (remote_unknown_operation message next Sample.created Sample.attached)
    as (H1 & _ & _ & _ & _ & _ & H2);
    [reflexivity | reflexivity | reflexivity | vm_compute; discriminate
    | | reflexivity | split; [exact H1 | exact H2]].
  unfold known_operation. vm_compute. intros [H|[H|H]]; discriminate H.
Defined.

(** ** The log and the transport under local writes *)

Lemma processOperation_transport op w :
  let w' := after (processOperation op w) in
  submitted w' = submitted w ∧ suspended w' = suspended w ∧
  unhandled w' = unhandled w ∧ nested_attached w' = nested_attached w ∧
  written w' = written w ∧ console w' = console w.
Proof.
  unfold processOperation. repeat case_decide; cbn; auto 10.
Qed.

Lemma write_body_unfold x w :
  write_body x w = processLocalOperation (issued x) (with_cached x w).
Proof. destruct x; [apply set_body_unfold | reflexivity | reflexivity]. Qed.

(** A local write on a map without connection only logs and applies. *)
Lemma processLocalOperation_local op w :
  connection (self w) = None →
  processLocalOperation op w = processOperation op (logged_in op w).
Proof.
  intros Hc. unfold processLocalOperation, bind, this, update_this, update.
  cbn. rewrite Hc. reflexivity.
Qed.

(** A local write on a map with a connection calls [submit] between the
    two. *)
Lemma submit_then {B} message (k : M B) w :
  (submit message ;; k) w = k (after (submit message w)).
Proof.
  unfold bind. destruct (submit_frame message w) as (sub & sus & unh & ->).
  reflexivity.
Qed.

Lemma processLocalOperation_connected op w c :
  connection (self w) = Some c →
  processLocalOperation op w
  = processOperation op
      (after (submit
                {| msg_clientSequenceNumber := clientSequenceNumber (self w);
                   msg_op := op;
                   msg_referenceSequenceNumber := sequenceNumber (self w) |}
                (logged_in op w))).
Proof.
  intros Hc.
  change (processLocalOperation op w)
    with ((match connection (self w) with
           | Some _ =>
             submit {| msg_clientSequenceNumber := clientSequenceNumber (self w);
                       msg_op := op;
                       msg_referenceSequenceNumber := sequenceNumber (self w) |}
           | None => ret tt
           end ;; processOperation op) (logged_in op w)).
  rewrite Hc. apply submit_then.
Qed.

Lemma processLocalOperation_log op w :
  let w' := after (processLocalOperation op w) in
  localOps (self w')
  = localOps (self w)
    ++ [{| msg_clientSequenceNumber := clientSequenceNumber (self w);
           msg_op := op;
           msg_referenceSequenceNumber := sequenceNumber (self w) |}] ∧
  clientSequenceNumber (self w') = clientSequenceNumber (self w) + 1 ∧
  sequenceNumber (self w') = sequenceNumber (self w) ∧
  connection (self w') = connection (self w) ∧
  deltaManager (self w') = deltaManager (self w).
Proof.
  destruct (processLocalOperation_unfold op w) as (sub & sus & unh & ->).
  match goal with |- context [processOperation ?o ?w1] =>
    pose proof (processOperation_bookkeeping o w1) as H end.
  cbv zeta. repeat split.
  - exact (f_equal localOps H).
  - exact (f_equal clientSequenceNumber H).
  - exact (f_equal sequenceNumber H).
  - exact (f_equal connection H).
  - exact (f_equal deltaManager H).
Qed.

Lemma write_body_log x w :
  let w' := after (write_body x w) in
  localOps (self w')
  = localOps (self w)
    ++ [{| msg_clientSequenceNumber := clientSequenceNumber (self w);
           msg_op := issued x;
           msg_referenceSequenceNumber := sequenceNumber (self w) |}] ∧
  clientSequenceNumber (self w') = clientSequenceNumber (self w) + 1 ∧
  sequenceNumber (self w') = sequenceNumber (self w) ∧
  connection (self w') = connection (self w) ∧
  deltaManager (self w') = deltaManager (self w).
Proof.
  rewrite write_body_unfold.
  pose proof (processLocalOperation_log (issued x) (with_cached x w)) as H.
  by destruct x.
Qed.

(** X6.  A sequence of local writes appends one message per write to the
    log, in the order of the writes: the messages carry the operations
    the writes build, client sequence numbers that count up from the
    counter by one, and the sequence number of the map as their reference
    sequence number; the counter ends as many steps further as there were
    writes. *)
Theorem local_writes_fill_the_log (xs : list LocalWrite) (w : World) :
  let w' := write_all xs w in
  localOps (self w')
  = localOps (self w)
    ++ messages_of (clientSequenceNumber (self w)) (sequenceNumber (self w)) xs ∧
  clientSequenceNumber (self w')
  = clientSequenceNumber (self w) + Z.of_nat (length xs) ∧
  sequenceNumber (self w') = sequenceNumber (self w).
Proof.
  revert w. induction xs as [|x rest IH]; intros w; cbn.
  - rewrite app_nil_r. repeat split; lia.
  - destruct (write_body_log x w) as (Hlog & Hn & Hseq & _).
    destruct (IH (after (write_body x w))) as (IHlog & IHn & IHseq).
    rewrite IHlog, IHn, IHseq, Hlog, Hn, Hseq. rewrite <- app_assoc.
    repeat split; try reflexivity; lia.
Qed.

(** X7.  A sequence of local writes emits exactly one event per write, in
    the order of the writes: [valueChanged] with the key for a set or a
    delete, [clear] for a clear. *)
Theorem local_writes_emit_one_event_each (xs : list LocalWrite) (w : World) :
  emitted (write_all xs w) = emitted w ++ (event_of <$> xs).
Proof.
  revert w. induction xs as [|x rest IH]; intros w; cbn.
  - by rewrite app_nil_r.
  - rewrite IH, write_body_unfold, processLocalOperation_emitted.
    rewrite <- app_assoc. f_equal.
    + by destruct x.
    + destruct x; unfold announced; cbn; repeat case_decide; done.
Qed.

Lemma write_all_connection xs : ∀ w,
  connection (self (write_all xs w)) = connection (self w) ∧
  deltaManager (self (write_all xs w)) = deltaManager (self w).
Proof.
  induction xs as [|x rest IH]; intros w; cbn; [done|].
  destruct (write_body_log x w) as (_ & _ & _ & Hc & Hdm).
  destruct (IH (after (write_body x w))) as [-> ->]. done.
Qed.

(** X8.  On a map without connection, local writes hand nothing to the
    transport: after any sequence of them the record of submissions, the
    suspended submissions and the unhandled rejections are as before,
    while the log holds one message per write. *)
Theorem local_map_submits_nothing (xs : list LocalWrite) (w : World) :
  connection (self w) = None →
  let w' := write_all xs w in
  submitted w' = submitted w ∧ suspended w' = suspended w ∧
  unhandled w' = unhandled w ∧
  length (localOps (self w')) = (length (localOps (self w)) + length xs)%nat.
Proof.
  revert w. induction xs as [|x rest IH]; intros w Hc; cbn.
  - repeat split; lia.
  - destruct (write_body_log x w) as (Hlog & _ & _ & Hc' & _).
    rewrite Hc in Hc'. destruct (IH _ Hc') as (-> & -> & -> & ->).
    rewrite Hlog, length_app. cbn.
    rewrite write_body_unfold, processLocalOperation_local by (by destruct x).
    match goal with |- context [processOperation ?op ?w1] =>
      destruct (processOperation_transport op w1) as (-> & -> & -> & _) end.
    destruct x; cbn; repeat split; lia.
Qed.

Lemma local_map_submits_nothing_witness :
  submitted (write_all [WSet "a" (UPlain (JNum 1)); WClear] (create "m")) = [] ∧
  length (localOps (self (write_all [WSet "a" (UPlain (JNum 1)); WClear]
                            (create "m")))) = 2%nat.
Proof.
  destruct (local_map_submits_nothing [WSet "a" (UPlain (JNum 1)); WClear]
              (create "m") eq_refl) as (H1 & _ & _ & H2).
  split; [exact H1 | exact H2].
Defined.

Lemma plain_write_message x n seq :
  plain_write x →
  plain_message {| msg_clientSequenceNumber := n; msg_op := issued x;
                   msg_referenceSequenceNumber := seq |}.
Proof.
  destruct x as [key [o|j]| |]; cbn; intros H; [done| | |].
  - right. eexists. split; [reflexivity|]. cbn. discriminate.
  - left. cbn. discriminate.
  - left. cbn. discriminate.
Qed.

Lemma write_body_plain x w c dm :
  connection (self w) = Some c →
  deltaManager (self w) = Some dm →
  plain_write x →
  let message := {| msg_clientSequenceNumber := clientSequenceNumber (self w);
                    msg_op := issued x;
                    msg_referenceSequenceNumber := sequenceNumber (self w) |} in
  submitted (after (write_body x w)) = submitted w ++ [message] ∧
  suspended (after (write_body x w)) = suspended w ∧
  unhandled (after (write_body x w)) = unhandled w.
Proof.
  intros Hc Hdm Hplain message.
  rewrite write_body_unfold.
  rewrite (processLocalOperation_connected _ _ c) by (by destruct x).
  match goal with |- context [processOperation ?op ?w1] =>
    destruct (processOperation_transport op w1) as (-> & -> & -> & _) end.
  erewrite submit_plain.
  - by destruct x.
  - destruct x; exact Hdm.
  - destruct x; by apply plain_write_message.
Qed.

(** X9.  On a map with a connection and a delta manager, local writes
    that store no collaborative object are handed to the delta manager at
    once and in the order of the writes: after any sequence of them the
    record of submissions has grown by exactly the messages the log has
    grown by, and no submission is suspended. *)
Theorem plain_writes_submitted_in_order (xs : list LocalWrite) (w : World)
    (c : IDeltaConnection) (dm : DeltaManager) :
  connection (self w) = Some c →
  deltaManager (self w) = Some dm →
  Forall plain_write xs →
  let w' := write_all xs w in
  submitted w'
  = submitted w
    ++ messages_of (clientSequenceNumber (self w)) (sequenceNumber (self w)) xs ∧
  suspended w' = suspended w ∧
  unhandled w' = unhandled w.
Proof.
  revert w. induction xs as [|x rest IH]; intros w Hc Hdm Hplain; cbn.
  - by rewrite app_nil_r.
  - apply Forall_cons in Hplain as [Hx Hrest].
    destruct (write_body_log x w) as (_ & Hn & Hseq & Hc' & Hdm').
    rewrite Hc in Hc'. rewrite Hdm in Hdm'.
    destruct (IH _ Hc' Hdm' Hrest) as (-> & -> & ->).
    destruct (write_body_plain x w c dm Hc Hdm Hx) as (-> & -> & ->).
    rewrite Hn, Hseq, <- app_assoc. done.
Qed.

Lemma plain_writes_submitted_in_order_witness :
  msg_clientSequenceNumber
    <$> submitted (write_all [WSet "a" (UPlain (JNum 1)); WDelete "a"; WClear]
                     Sample.attached) = [0; 1; 2].
Proof.
  destruct (plain_writes_submitted_in_order
              [WSet "a" (UPlain (JNum 1)); WDelete "a"; WClear] Sample.attached
              Sample.created
              {| dm_baseSequenceNumber := 0; dm_connection := Some Sample.created |}
              eq_refl eq_refl) as (H & _).
  - repeat constructor.
  - rewrite H. reflexivity.
Defined.

(** ** Sets of collaborative objects *)

(** [submit] on the message of a set of the collaborative object the
    cache holds under the object's id. *)
Lemma submit_reference key o n seq w :
  collaborativeObjects (self w) !! obj_id o = Some o →
  let message := {| msg_clientSequenceNumber := n;
                    msg_op := issued (WSet key (UObject o));
                    msg_referenceSequenceNumber := seq |} in
  submit message w
  = if nested_isLocal o w
    then (Normal tt, set_suspended (suspended w ++ [(o, message)]) w)
    else detached (submitOp message) w.
Proof.
  intros Hcache message. unfold submit, submit_body. cbn.
  case_decide; [|done]. case_decide; [|done].
  unfold detached, bind at 1, this. cbn. rewrite Hcache.
  by destruct (nested_isLocal o w).
Qed.

Lemma set_object_unfold key o w c :
  connection (self w) = Some c →
  let message := {| msg_clientSequenceNumber := clientSequenceNumber (self w);
                    msg_op := issued (WSet key (UObject o));
                    msg_referenceSequenceNumber := sequenceNumber (self w) |} in
  let w0 := logged_in (issued (WSet key (UObject o)))
              (with_cached (WSet key (UObject o)) w) in
  set_body key (UObject o) w
  = processOperation (issued (WSet key (UObject o)))
      (if nested_isLocal o w
       then set_suspended (suspended w ++ [(o, message)]) w0
       else after (detached (submitOp message) w0)).
Proof.
  intros Hc message w0. rewrite set_body_unfold.
  rewrite (processLocalOperation_connected _ _ c) by exact Hc.
  fold (with_cached (WSet key (UObject o)) w).
  change (issued (WSet key (UObject o)))
    with {| op_type := "set"; op_key := Some key;
            op_value := Some (stored (UObject o)) |}.
  f_equal.
  pose proof (submit_reference key o (clientSequenceNumber (self w))
                (sequenceNumber (self w)) w0) as H.
  cbv zeta in H. unfold w0 at 1 in H. cbn in H.
  specialize (H (lookup_insert_eq _ _ _)).
  change (nested_isLocal o w0) with (nested_isLocal o w) in H.
  fold w0. subst message. cbn in *.
  etrans; [exact (f_equal after H)|].
  by destruct (nested_isLocal o w).
Qed.

(** X10.  On a map with a connection and a delta manager, the set of a
    collaborative object that is still local is not handed to the delta
    manager by [set]: its message joins the suspended submissions, while
    the operation is logged and applied.  When the object's [attach]
    resolves, that message, and nothing else, is handed to the delta
    manager, and the object is no longer local. *)
Theorem reference_set_waits_for_attach (key : string) (o : ICollaborativeObject)
    (w : World) (c : IDeltaConnection) (dm : DeltaManager) :
  connection (self w) = Some c →
  deltaManager (self w) = Some dm →
  obj_ref o ∉ nested_attached w →
  let message := {| msg_clientSequenceNumber := clientSequenceNumber (self w);
                    msg_op := issued (WSet key (UObject o));
                    msg_referenceSequenceNumber := sequenceNumber (self w) |} in
  let w1 := after (set_body key (UObject o) w) in
  submitted w1 = submitted w ∧
  suspended w1 = suspended w ++ [(o, message)] ∧
  localOps (self w1) = localOps (self w) ++ [message] ∧
  map_state w1 !! key = Some (Some (stored (UObject o))) ∧
  ∃ w2, step (NestedAttachResolved (length (suspended w))) w1 = Some (Quiet, w2) ∧
        submitted w2 = submitted w ++ [message] ∧
        suspended w2 = suspended w ∧
        obj_ref o ∈ nested_attached w2.
Proof.
  intros Hc Hdm Hlocal message w1.
  assert (Hlog : localOps (self w1) = localOps (self w) ++ [message] ∧
                 deltaManager (self w1) = deltaManager (self w)).
  { destruct (write_body_log (WSet key (UObject o)) w) as (H & _ & _ & _ & H').
    split; [exact H | exact H']. }
  assert (Hstate : map_state w1 !! key = Some (Some (stored (UObject o)))).
  { subst w1. rewrite set_body_unfold, processLocalOperation_map_state.
    rewrite applied_set. cbn. by rewrite lookup_insert_eq. }
  assert (Htransport : submitted w1 = submitted w ∧
                       suspended w1 = suspended w ++ [(o, message)] ∧
                       nested_attached w1 = nested_attached w).
  { subst w1. rewrite (set_object_unfold key o w c Hc).
    unfold nested_isLocal. rewrite bool_decide_eq_true_2 by exact Hlocal.
    match goal with |- context [processOperation ?op ?w0] =>
      destruct (processOperation_transport op w0) as (-> & -> & _ & -> & _) end.
    done. }
  destruct Hlog as [Hlog Hdm1]. destruct Htransport as (Hsub & Hsus & Hnested).
  repeat split; try assumption.
  unfold step. rewrite Hsus, lookup_app_r, Nat.sub_diag by lia. cbn [lookup].
  eexists. split; [reflexivity|].
  unfold detached, submitOp, bind, this. cbn.
  rewrite Hdm1, Hdm. cbn.
  rewrite Hsub, Hnested, delete_middle.
  rewrite app_nil_r. repeat split; try done.
  by apply elem_of_union_l, elem_of_singleton.
Qed.

Lemma reference_set_waits_for_attach_witness :
  let w1 := after (set_body "child" (UObject Sample.nested) Sample.attached) in
  submitted w1 = [] ∧ length (suspended w1) = 1%nat.
Proof.
  intros w1.
  destruct (reference_set_waits_for_attach "child" Sample.nested Sample.attached
              Sample.created
              {| dm_baseSequenceNumber := 0; dm_connection := Some Sample.created |}
              eq_refl eq_refl) as (H1 & H2 & _).
  - vm_compute. set_solver.
  - split; [exact H1|]. fold w1 in H2. rewrite H2. reflexivity.
Defined.

(** X11.  The set of a collaborative object that is not local any more is
    handed to the delta manager by [set] itself, like a plain write. *)
Theorem reference_set_of_attached_object (key : string) (o : ICollaborativeObject)
    (w : World) (c : IDeltaConnection) (dm : DeltaManager) :
  connection (self w) = Some c →
  deltaManager (self w) = Some dm →
  obj_ref o ∈ nested_attached w →
  let message := {| msg_clientSequenceNumber := clientSequenceNumber (self w);
                    msg_op := issued (WSet key (UObject o));
                    msg_referenceSequenceNumber := sequenceNumber (self w) |} in
  let w1 := after (set_body key (UObject o) w) in
  submitted w1 = submitted w ++ [message] ∧
  suspended w1 = suspended w ∧
  unhandled w1 = unhandled w.
Proof.
  intros Hc Hdm Hattached message w1. subst w1.
  rewrite (set_object_unfold key o w c Hc).
  unfold nested_isLocal. rewrite bool_decide_eq_false_2 by (by intros H; apply H).
  match goal with |- context [processOperation ?op ?w0] =>
    destruct (processOperation_transport op w0) as (-> & -> & -> & _) end.
  unfold detached, submitOp, bind, this. cbn. rewrite Hdm. done.
Qed.

Lemma reference_set_of_attached_object_witness :
  let w := set_nested_attached {[ obj_ref Sample.nested ]} Sample.attached in
  msg_clientSequenceNumber
    <$> submitted (after (set_body "child" (UObject Sample.nested) w)) = [0].
Proof.
  intros w.
  destruct (reference_set_of_attached_object "child" Sample.nested w
              Sample.created
              {| dm_baseSequenceNumber := 0; dm_connection := Some Sample.created |}
              eq_refl eq_refl) as (H & _).
  - vm_compute. set_solver.
  - rewrite H. reflexivity.
Defined.

(** ** Reads *)

Lemma get_body_cases key w :
  after (get_body key w) = w ∨
  ∃ value c r type,
    map_state w !! key = Some (Some value) ∧
    mv_type value = ValueType_name Collaborative ∧
    mv_value value = PCollab c ∧
    collaborativeObjects (self w) !! cmv_id c = None ∧
    registry (self w) = Some r ∧
    getExtension r (cmv_type c) = Some type ∧
    get_body key w
    = (Normal (GObject {| obj_ref := next_addr w; obj_id := cmv_id c;
                          obj_type := type |}),
       set_next_addr (S (next_addr w))
         (set_self
            (set_collaborativeObjects
               (<[cmv_id c := {| obj_ref := next_addr w; obj_id := cmv_id c;
                                 obj_type := type |}]>
                  (collaborativeObjects (self w))) (self w)) w)).
Proof.
  unfold get_body.
  destruct (map_state w !! key) as [[value|]|] eqn:Hkey; try (by left).
  case_decide as Htype; [|by left].
  destruct (mv_value value) as [c|j] eqn:Hvalue; [|by left].
  destruct (collaborativeObjects (self w) !! cmv_id c) eqn:Hcache; [by left|].
  destruct (registry (self w)) as [r|] eqn:Hr; [|by left].
  destruct (getExtension r (cmv_type c)) as [type|] eqn:Hext; [|by left].
  right. by exists value, c, r, type.
Qed.

(** X12.  [get] gives the same answer when it is asked again, and the
    second call changes nothing: a reference that [get] had to turn into
    a live object through the registry is in the cache afterwards, so the
    caller is handed the very same object every time. *)
Theorem get_twice (key : string) (w : World) :
  get_body key (after (get_body key w))
  = (outcome (get_body key w), after (get_body key w)).
Proof.
  destruct (get_body_cases key w)
    as [Hsame | (value & c & r & type & Hkey & Htype & Hvalue & _ & _ & _ & E)].
  - destruct (get_body key w) as [r w1] eqn:E0. cbn in *. subst w1. exact E0.
  - rewrite E. cbn [outcome after fst snd]. unfold get_body at 1.
    change (map_state (set_next_addr _ _)) with (map_state w).
    rewrite Hkey. case_decide; [|done]. rewrite Hvalue. cbn.
    by rewrite lookup_insert_eq.
Qed.

(** X13.  [get] is a read: whatever it returns or throws, Map State, the
    emitted events, the log, the sequence numbers and the record of the
    transport are as before, and the cache of collaborative objects keeps
    every object it held. *)
Theorem get_changes_only_the_cache (key : string) (w : World) :
  let w' := after (get_body key w) in
  map_state w' = map_state w ∧ emitted w' = emitted w ∧
  localOps (self w') = localOps (self w) ∧
  sequenceNumber (self w') = sequenceNumber (self w) ∧
  clientSequenceNumber (self w') = clientSequenceNumber (self w) ∧
  submitted w' = submitted w ∧
  collaborativeObjects (self w) ⊆ collaborativeObjects (self w').
Proof.
  destruct (get_body_cases key w)
    as [Hsame | (value & c & r & type & _ & _ & _ & Hcache & _ & _ & E)]; cbv zeta.
  - by rewrite Hsame.
  - rewrite E. cbn [after snd]. repeat split; try reflexivity.
    apply insert_subseteq. exact Hcache.
Qed.




(** X16.  The delete of a key the map does not hold is no error: it
    returns normally and leaves Map State as it was, and it still logs
    its message and emits [valueChanged] for the key. *)
Theorem delete_of_missing_key (key : string) (w : World) :
  map_state w !! key = None →
  let w' := after (delete_body key w) in
  outcome (delete_body key w) = Normal tt ∧
  map_state w' = map_state w ∧
  emitted w' = emitted w ++ [valueChanged (Some key)] ∧
  length (localOps (self w')) = S (length (localOps (self w))).
Proof.
  intros Hkey w'. subst w'. unfold delete_body.
  split; [apply processLocalOperation_outcome; auto|].
  split; [|split].
  - rewrite processLocalOperation_map_state, applied_delete. by apply delete_id.
  - rewrite processLocalOperation_emitted. reflexivity.
  - match goal with |- context [processLocalOperation ?op w] =>
      destruct (processLocalOperation_log op w) as (-> & _) end.
    rewrite length_app. cbn. lia.
Qed.

Lemma delete_of_missing_key_witness :
  map_state (after (delete_body "a" (create "m"))) = map_state (create "m") ∧
  emitted (after (delete_body "a" (create "m"))) = [valueChanged (Some "a")].
Proof.
  destruct (delete_of_missing_key "a" (create "m")) as (_ & H1 & H2 & _).
  - reflexivity.
  - split; [exact H1 | exact H2].
Defined.

(** ** Snapshots and loading *)

(** X17.  [snapshot] on a map that has no services throws (the call of
    [this.services.objectStorageService] fails): nothing is written, and
    Map State and the sequence number are as before. *)
Theorem snapshot_without_services (w : World) :
  services (self w) = None →
  outcome (snapshot w) = Throw TypeError ∧
  written (after (snapshot w)) = written w ∧
  map_state (after (snapshot w)) = map_state w ∧
  sequenceNumber (self (after (snapshot w))) = sequenceNumber (self w).
Proof.
  intros Hs. unfold snapshot, bind, this, allocate. cbn. rewrite Hs. cbn.
  repeat split. unfold map_state, object_at. cbn.
  destruct (decide (next_addr w = data (self w))) as [E|E].
  - rewrite E, lookup_insert_eq. reflexivity.
  - by rewrite lookup_insert_ne.
Qed.

Lemma snapshot_without_services_witness :
  outcome (snapshot (create "m")) = Throw TypeError ∧
  written (after (snapshot (create "m"))) = [].
Proof.
  destruct (snapshot_without_services (create "m") eq_refl) as (H1 & H2 & _).
  split; [exact H1 | exact H2].
Defined.

(** X18.  The round trip of a snapshot.  When [load] reads back the blob
    [snapshot] wrote, the sequence number and the dictionary it holds,
    the loaded map has the Map State and the sequence number the
    snapshotting map had; its [loadingP] resolves and its delta manager
    starts from that sequence number. *)
Theorem snapshot_then_load (w : World) (s : ICollaborationServices)
    (w2 : World) (s2 : ICollaborationServices) :
  services (self w) = Some s →
  services (self w2) = Some s2 →
  let w1 := after (snapshot w) in
  let blob := {| snap_sequenceNumber := sequenceNumber (self w);
                 snap_snapshot := next_addr w |} in
  let w3 := load_read (Blob (snap_sequenceNumber blob)
                         (object_at (snap_snapshot blob) w1)) w2 in
  written w1 = written w ++ [(map_id (self w), blob)] ∧
  map_state w3 = map_state w ∧
  sequenceNumber (self w3) = sequenceNumber (self w) ∧
  loadingP (self w3) = Resolved ∧
  deltaManager (self w3)
  = Some {| dm_baseSequenceNumber := sequenceNumber (self w);
            dm_connection := connection (self w2) |}.
Proof.
  intros Hs Hs2. cbv zeta. rewrite (snapshot_unfold w s Hs).
  cbn [after snd snap_sequenceNumber snap_snapshot]. split; [reflexivity|].
  unfold load_read, settle_load, load_finish, listenForUpdates,
    bind, ret, this, allocate, update_this, update. cbn. rewrite Hs2. cbn.
  repeat split.
  unfold map_state, object_at. cbn. by rewrite !lookup_insert_eq.
Qed.

Lemma snapshot_then_load_witness :
  let w := after (set_body "x" (UPlain (JStr "y")) Sample.attached) in
  let w2 := load_connected Sample.found
              (load "m" Sample.the_services Sample.the_registry) in
  map_state (load_read (Blob (sequenceNumber (self w))
                          (object_at (next_addr w) (after (snapshot w)))) w2)
  = map_state w.
Proof.
  intros w w2.
  exact (proj1 (proj2 (snapshot_then_load w Sample.the_services w2
                         Sample.the_services eq_refl eq_refl))).
Defined.

(** X19.  [load] of a document that does not exist, or for which storage
    holds no blob, starts from the empty map at sequence number 0: in the
    first case without waiting for a read, [loadingP] resolving as soon as
    [connect] has. *)
Theorem load_without_snapshot (c : IDeltaConnection) (w : World)
    (s : ICollaborationServices) :
  services (self w) = Some s →
  (existing c = false →
   loadingP (self (load_connected c w)) = Resolved ∧
   map_state (load_connected c w) = ∅ ∧
   sequenceNumber (self (load_connected c w)) = 0 ∧
   connection (self (load_connected c w)) = Some c) ∧
  (existing c = true →
   loadingP (self (load_connected c w)) = Reading ∧
   map_state (load_connected c w) = map_state w ∧
   loadingP (self (load_read NoBlob (load_connected c w))) = Resolved ∧
   map_state (load_read NoBlob (load_connected c w)) = ∅ ∧
   sequenceNumber (self (load_read NoBlob (load_connected c w))) = 0).
Proof.
  intros Hs.
  unfold load_connected, load_read, settle_load, load_finish, listenForUpdates,
    bind, ret, this, allocate, update_this, update.
  split; intros ->; cbn; rewrite Hs; cbn; repeat split;
    unfold map_state, object_at; cbn; by rewrite lookup_insert_eq.
Qed.

Lemma load_without_snapshot_witness :
  map_state (load_connected Sample.created
               (load "m" Sample.the_services Sample.the_registry)) = ∅ ∧
  loadingP (self (load_connected Sample.found
                    (load "m" Sample.the_services Sample.the_registry)))
  = Reading.
Proof.
  split.
  - apply (proj1 (load_without_snapshot Sample.created
                    (load "m" Sample.the_services Sample.the_registry)
                    Sample.the_services eq_refl)). reflexivity.
  - apply (proj2 (load_without_snapshot Sample.found
                    (load "m" Sample.the_services Sample.the_registry)
                    Sample.the_services eq_refl)). reflexivity.
Defined.

(** X20.  When what storage holds does not parse, [load] rejects
    [loadingP] and leaves Map State and the sequence number alone; every
    call of [keys], [get], [has], [set], [delete] or [clear] made
    afterwards is rejected with the same error and does nothing to the
    map. *)
Theorem load_of_garbled_snapshot (c : Call) (w : World) :
  loadingP (self w) = Reading →
  awaiting w = [] →
  ∃ w', run [LoadRead Garbled; Invoke c; Continue] w
        = Some ([Quiet; Quiet; Settled c (Throw SyntaxError)], w') ∧
        loadingP (self w') = Rejected SyntaxError ∧
        map_state w' = map_state w ∧
        sequenceNumber (self w') = sequenceNumber (self w) ∧
        localOps (self w') = localOps (self w) ∧
        emitted w' = emitted w.
Proof.
  intros Hload Hqueue. unfold run, step. rewrite Hload.
  unfold load_read, settle_load, load_finish, bind, throw. cbn.
  rewrite Hqueue. cbn. eexists. split; [reflexivity|]. by cbn.
Qed.

Lemma load_of_garbled_snapshot_witness :
  fst <$> run [LoadRead Garbled; Invoke (CallSet "a" (UPlain JNull)); Continue]
            (load_connected Sample.found
               (load "m" Sample.the_services Sample.the_registry))
  = Some [Quiet; Quiet; Settled (CallSet "a" (UPlain JNull)) (Throw SyntaxError)].
Proof.
  destruct (load_of_garbled_snapshot (CallSet "a" (UPlain JNull))
              (load_connected Sample.found
                 (load "m" Sample.the_services Sample.the_registry))
              eq_refl eq_refl) as (w' & H & _).
  rewrite H. reflexivity.
Defined.

(** ** The log over the life of a map *)

Lemma processOperation_log_of op w :
  log_of (after (processOperation op w)) = log_of w.
Proof.
  pose proof (processOperation_bookkeeping op w) as H. unfold log_of.
  f_equal; [exact (f_equal localOps H) | exact (f_equal clientSequenceNumber H)].
Qed.

Lemma submit_all_log_of ops w : log_of (after (submit_all ops w)) = log_of w.
Proof. by destruct (submit_all_frame ops w) as (sub & sus & unh & ->). Qed.

Lemma attach_connected_log_of c w :
  log_of (after (attach_connected c w)) = log_of w.
Proof.
  unfold attach_connected, bind at 1, update_this, update.
  cbn [fst snd]. destruct (existing c); [reflexivity|].
  unfold bind at 1, listenForUpdates, bind at 1, this.
  cbn [fst snd]. cbn [self set_self services set_connection].
  destruct (services (self w)); [|reflexivity].
  unfold update_this, update, bind at 1, this.
  by rewrite submit_all_log_of.
Qed.

Lemma load_finish_log_of raw w :
  log_of (after (load_finish raw w)) = log_of w ∧
  log_of (settle_load (load_finish raw) w) = log_of w.
Proof.
  unfold settle_load, load_finish, listenForUpdates, bind, ret, throw, this,
    allocate, update_this, update.
  destruct raw; cbn; destruct (services (self w)); done.
Qed.

Lemma processRemoteMessage_log_of message w :
  log_of (after (processRemoteMessage message w)) = log_of w ∨
  ∃ head, localOps (self w)
          = head :: localOps (self (after (processRemoteMessage message w))) ∧
          clientSequenceNumber (self (after (processRemoteMessage message w)))
          = clientSequenceNumber (self w).
Proof.
  unfold processRemoteMessage, bind, this, update_this, update. cbn.
  case_decide; [|by left]. case_decide; [|by left].
  unfold processRemoteOperation, bind, this. cbn.
  destruct (connection (self w)) as [c|]; [|by left].
  case_decide.
  - destruct (localOps (self w)) as [|head rest] eqn:Hlog; cbn.
    + left. unfold log_of. cbn. by rewrite Hlog.
    + case_decide; cbn.
      * right. by exists head.
      * left. unfold log_of. cbn. by rewrite Hlog.
  - left. by rewrite processOperation_log_of.
Qed.

(** What an event does to the log: nothing, one more message at its end
    numbered by the counter, which moves on, or its head removed. *)
Lemma step_log e w o w' :
  step e w = Some (o, w') →
  log_of w' = log_of w ∨
  (∃ message,
     msg_clientSequenceNumber message = clientSequenceNumber (self w) ∧
     log_of w' = (localOps (self w) ++ [message],
                  clientSequenceNumber (self w) + 1)) ∨
  (∃ head, localOps (self w) = head :: localOps (self w') ∧
           clientSequenceNumber (self w') = clientSequenceNumber (self w)).
Proof.
  destruct e; unfold step; cbv zeta.
  - intros [= <- <-]. by left.
  - destruct (awaiting w) as [|c rest]; [discriminate|].
    destruct (loadingP (self w)); try discriminate; intros [= <- <-];
      [|by left].
    assert (Hwrite : ∀ x (ok : Result),
      log_of (after ((write_body x ;; ret ok) (set_awaiting rest w)))
      = (localOps (self w)
         ++ [{| msg_clientSequenceNumber := clientSequenceNumber (self w);
                msg_op := issued x;
                msg_referenceSequenceNumber := sequenceNumber (self w) |}],
         clientSequenceNumber (self w) + 1)).
    { intros x ok. unfold bind, ret.
      destruct (write_body_log x (set_awaiting rest w)) as (Hlog & Hn & _).
      destruct (write_body x (set_awaiting rest w)) as [[[]|err] w1];
        cbn in *; unfold log_of; by rewrite Hlog, Hn. }
    destruct c as [|key|key|key value|key|].
    + by left.
    + left. cbn. unfold bind, ret.
      destruct (get_body_cases key (set_awaiting rest w))
        as [Hsame | (value & cv & rg & ty & ? & ? & ? & ? & ? & ? & E)].
      * destruct (get_body key (set_awaiting rest w)) as [[r|err] w1];
          cbn in *; by subst w1.
      * rewrite E. reflexivity.
    + by left.
    + right. left. eexists. split; [|apply (Hwrite (WSet key value))]. done.
    + right. left. eexists. split; [|apply (Hwrite (WDelete key))]. done.
    + right. left. eexists. split; [|apply (Hwrite WClear)]. done.
  - intros [= <- <-]. left.
    unfold snapshot, bind, this, allocate, update. cbn.
    by destruct (services (self w)).
  - intros [= <- <-]. by left.
  - destruct (attaching w) as [|n]; [discriminate|].
    intros [= <- <-]. left. by rewrite attach_connected_log_of.
  - destruct (loadingP (self w)); try discriminate.
    intros [= <- <-]. left. unfold load_connected.
    destruct (existing c); [reflexivity|].
    by rewrite (proj2 (load_finish_log_of NoBlob _)).
  - destruct (loadingP (self w)); try discriminate.
    intros [= <- <-]. left. apply load_finish_log_of.
  - destruct (loadingP (self w)); try discriminate; intros [= <- <-]; by left.
  - destruct (deltaManager (self w)); [|discriminate].
    intros [= <- <-].
    destruct (processRemoteMessage_log_of message w) as [H|(head & H1 & H2)].
    + left. by destruct (processRemoteMessage message w) as [[a|err] w1].
    + right. right. exists head.
      by destruct (processRemoteMessage message w) as [[a|err] w1].
  - destruct (suspended w !! i) as [[obj message]|]; [|discriminate].
    intros [= <- <-]. left.
    unfold detached, submitOp, bind, this, update. cbn.
    by destruct (deltaManager (self w)).
  - destruct (suspended w !! i); [|discriminate].
    intros [= <- <-]. by left.
Qed.

Lemma step_consecutive_log e w o w' :
  step e w = Some (o, w') → consecutive_log w → consecutive_log w'.
Proof.
  intros Hstep. unfold consecutive_log, log_numbers.
  destruct (step_log _ _ _ _ Hstep)
    as [H | [(message & Hn & H) | (head & Hlog & Hn)]].
  - injection H as -> ->. done.
  - injection H as -> ->. intros Hw.
    rewrite fmap_app, length_app, Hw. cbn [fmap list_fmap length]. rewrite Hn.
    replace (length (localOps (self w)) + 1)%nat
      with (S (length (localOps (self w)))) by lia.
    rewrite seqZ_S. f_equal; [f_equal; lia | f_equal; lia].
  - rewrite Hlog, Hn. cbn [fmap list_fmap length]. intros Hw.
    rewrite seqZ_cons in Hw by lia. injection Hw as _ Hw.
    rewrite Hw. f_equal; lia.
Qed.

(** X21.  In every run that starts from a new map, the client sequence
    numbers of the messages in the log are consecutive and end just below
    the counter; so the head of the log is always the oldest local
    operation that has not been acknowledged, and no two entries share a
    number. *)
Theorem log_numbers_are_consecutive (id : string)
    (s : option ICollaborationServices) (r : option Registry)
    (es : list Event) (os : list Observation) (w : World) :
  run es (new_Map id s r) = Some (os, w) →
  consecutive_log w ∧ NoDup (log_numbers w).
Proof.
  intros Hrun.
  assert (H : consecutive_log w).
  { assert (H0 : consecutive_log (new_Map id s r)) by reflexivity.
    revert Hrun H0. generalize (new_Map id s r). revert os w.
    induction es as [|e rest IH]; intros os w w0; cbn.
    - by intros [= <- <-].
    - destruct (step e w0) as [[o w1]|] eqn:Hstep; [|discriminate].
      destruct (run rest w1) as [[os' w2]|] eqn:Hrun; [|discriminate].
      intros [= <- <-] H0. eapply IH; [exact Hrun|].
      by eapply step_consecutive_log. }
  split; [exact H|]. rewrite H. apply NoDup_seqZ.
Qed.

Lemma log_numbers_are_consecutive_witness :
  match run (Overtaking.two_sets
             ++ [InvokeAttach Sample.the_services Sample.the_registry;
                 AttachConnected Sample.created;
                 Deliver (Sample.echo 1 0 (Sample.set_op "a" 1))])
          (create "m") with
  | Some (_, w) => NoDup (log_numbers w)
  | None => False
  end.
Proof.
  destruct (run _ (create "m")) as [[os w]|] eqn:Hrun.
  - exact (proj2 (log_numbers_are_consecutive "m" None None _ os w Hrun)).
  - vm_compute in Hrun. discriminate Hrun.
Defined.

(** ** Acknowledgements in order *)

(** The echo of the head of the log, sequenced next: the numbers are
    taken and the head leaves the log. *)
Lemma own_echo_unfold c head rest w :
  connection (self w) = Some c →
  localOps (self w) = head :: rest →
  processRemoteMessage (echo_of c (sequenceNumber (self w) + 1) head) w
  = (Normal tt,
     set_self
       (set_localOps rest
          (set_minimumSequenceNumber 0
             (set_sequenceNumber (sequenceNumber (self w) + 1) (self w)))) w).
Proof.
  intros Hc Hlog.
  unfold processRemoteMessage, bind, this, update_this, update. cbn.
  case_decide; [|done]. case_decide; [|done].
  unfold processRemoteOperation, bind, this, update_this, update. cbn.
  rewrite Hc, Hlog. case_decide; [|done]. case_decide; [|done]. reflexivity.
Qed.

(** X22.  When the server echoes the oldest messages of the log in their
    order, each echo sequenced right after the one before, every echo
    retires exactly its message: afterwards the log holds the messages
    that were not echoed, the sequence number has moved on by the number
    of echoes, and Map State, the events and the console are untouched
    (no operation is applied twice, no duplicate ack is reported). *)
Theorem echoes_in_order_retire_the_log (c : IDeltaConnection)
    (acked rest : list IMessage) (w : World) :
  connection (self w) = Some c →
  localOps (self w) = acked ++ rest →
  let w' := deliver_all (echoes c (sequenceNumber (self w) + 1) acked) w in
  localOps (self w') = rest ∧
  sequenceNumber (self w') = sequenceNumber (self w) + Z.of_nat (length acked) ∧
  map_state w' = map_state w ∧ emitted w' = emitted w ∧
  console w' = console w.
Proof.
  revert w. induction acked as [|head acked IH]; intros w Hc Hlog;
    cbn [echoes deliver_all length].
  - cbn in Hlog. repeat split; [exact Hlog | lia].
  - rewrite (own_echo_unfold c head (acked ++ rest) w Hc Hlog).
    cbn [after snd].
    match goal with |- context [deliver_all _ ?w1] =>
      specialize (IH w1 Hc eq_refl); cbv zeta in IH;
      change (sequenceNumber (self w1)) with (sequenceNumber (self w) + 1) in IH;
      destruct IH as (-> & -> & -> & -> & ->) end.
    repeat split. lia.
Qed.

Lemma echoes_in_order_retire_the_log_witness :
  let w := write_all [WSet "a" (UPlain (JNum 1)); WDelete "a"] Sample.attached in
  localOps (self (deliver_all (echoes Sample.created 1 (localOps (self w))) w)) = [].
Proof.
  intros w.
  destruct (echoes_in_order_retire_the_log Sample.created (localOps (self w)) [] w)
    as (H & _).
  - reflexivity.
  - by rewrite app_nil_r.
  - exact H.
Defined.

(** ** Replicas *)

(** X23.  A local write and its delivery to another replica do the same
    to Map State: when a client applies an operation it issues and a
    replica with the same Map State is handed that operation by the
    sequencer as another client's, in sequence, the two end with the same
    Map State. *)
Theorem replicas_converge (op : IMapOperation) (message : ISequencedMessage)
    (c : IDeltaConnection) (issuer replica : World) :
  map_state issuer = map_state replica →
  sm_op message = op →
  sm_sequenceNumber message = sequenceNumber (self replica) + 1 →
  sm_type message = OperationType →
  connection (self replica) = Some c →
  sm_clientId message ≠ clientId c →
  map_state (after (processLocalOperation op issuer))
  = map_state (after (processRemoteMessage message replica)).
Proof.
  intros Hstate Hop Hseq Htype Hc Hid.
  rewrite processLocalOperation_map_state.
  rewrite (processRemoteMessage_remote message c replica Hseq Htype Hc Hid).
  rewrite processOperation_map_state, Hop, Hstate. reflexivity.
Qed.

Lemma replicas_converge_witness :
  map_state (after (processLocalOperation (Sample.set_op "a" 1) (create "m")))
  = map_state (after (processRemoteMessage
                        (mkSequenced 1 0 OperationType "other" 0 0
                           (Sample.set_op "a" 1)) Sample.attached)).
Proof.
  apply (replicas_converge (Sample.set_op "a" 1) _ Sample.created);
    try reflexivity.
  vm_compute. discriminate.
Defined.

(** ** A connection without a delta manager *)

Lemma submit_without_manager message w :
  deltaManager (self w) = None →
  plain_message message →
  submit message w = (Normal tt, set_unhandled (unhandled w ++ [TypeError]) w).
Proof.
  intros Hdm Hplain.
  assert (Hop : detached (submitOp message) w
                = (Normal tt, set_unhandled (unhandled w ++ [TypeError]) w)).
  { unfold detached, submitOp, bind, this. cbn. by rewrite Hdm. }
  unfold submit, submit_body. case_decide; [|exact Hop].
  destruct Hplain as [Hne | (value & Hvalue & Htype)]; [congruence|].
  rewrite Hvalue. case_decide; [congruence | exact Hop].
Qed.

(** X24.  An [attach] that fails its assertion has stored the connection
    but created no delta manager.  In that state a local write is still
    logged and applied and still returns normally, but nothing reaches
    the transport: the call of [submitOp] on the missing delta manager
    rejects the promise of [submit], which nobody awaits. *)
Theorem write_after_failed_attach (x : LocalWrite) (w : World)
    (s : ICollaborationServices) (r : Registry) (c : IDeltaConnection) :
  deltaManager (self w) = None →
  existing c = true →
  plain_write x →
  let w1 := after (attach_connected c (after (attach_call s r w))) in
  let w2 := after (write_body x w1) in
  outcome (attach_connected c (after (attach_call s r w))) = Throw AssertionError ∧
  isLocal w1 = false ∧ deltaManager (self w1) = None ∧
  outcome (write_body x w1) = Normal tt ∧
  map_state w2 = applied (issued x) (map_state w) ∧
  length (localOps (self w2)) = S (length (localOps (self w))) ∧
  submitted w2 = submitted w ∧
  unhandled w2 = unhandled w ++ [TypeError].
Proof.
  intros Hdm Hexisting Hplain.
  assert (E : attach_connected c (after (attach_call s r w))
              = (Throw AssertionError,
                 set_self (set_connection (Some c)
                             (set_registry (Some r)
                                (set_services (Some s) (self w))))
                   (set_attaching (S (attaching w)) w))).
  { unfold attach_connected, attach_call, bind, update_this, update. cbn.
    rewrite Hexisting. by destruct w. }
  cbv zeta. rewrite E. cbn [outcome after fst snd].
  split; [reflexivity|]. split; [reflexivity|]. split; [exact Hdm|].
  match goal with |- context [write_body x ?w1] => set (w1' := w1) end.
  rewrite write_body_unfold.
  split; [apply processLocalOperation_outcome; destruct x; cbn; auto|].
  split; [rewrite processLocalOperation_map_state; by destruct x|].
  split.
  { destruct (processLocalOperation_log (issued x) (with_cached x w1')) as (-> & _).
    rewrite length_app. destruct x; cbn; lia. }
  rewrite (processLocalOperation_connected _ _ c) by (by destruct x).
  match goal with |- context [processOperation ?op ?w0] =>
    destruct (processOperation_transport op w0) as (-> & _ & -> & _) end.
  rewrite submit_without_manager.
  - by destruct x.
  - by destruct x.
  - destruct x; by apply plain_write_message.
Qed.

Lemma write_after_failed_attach_witness :
  let w1 := after (attach_connected Sample.found
                     (after (attach_call Sample.the_services Sample.the_registry
                               (create "m")))) in
  submitted (after (write_body (WSet "a" (UPlain (JNum 1))) w1)) = [] ∧
  unhandled (after (write_body (WSet "a" (UPlain (JNum 1))) w1)) = [TypeError].
Proof.
  intros w1.
  destruct (write_after_failed_attach (WSet "a" (UPlain (JNum 1))) (create "m")
              Sample.the_services Sample.the_registry Sample.found
              eq_refl eq_refl I) as (_ & _ & _ & _ & _ & _ & H1 & H2).
  split; [exact H1 | exact H2].
Defined.

Lemma attach_plain_log_in_order_witness :
  let w := write_all [WSet "a" (UPlain (JNum 1)); WDelete "a"] (create "m") in
  msg_clientSequenceNumber
    <$> submitted (after (attach_connected Sample.created
                            (after (attach_call Sample.the_services
                                      Sample.the_registry w)))) = [0; 1].
Proof.
  intros w.
  destruct (attach_plain_log_in_order Sample.the_services Sample.the_registry
              Sample.created w eq_refl) as (_ & H & _).
  - assert (Hlog : localOps (self w)
                   = messages_of 0 0 [WSet "a" (UPlain (JNum 1)); WDelete "a"])
      by (vm_compute; reflexivity).
    rewrite Hlog. cbn [messages_of].
    constructor; [apply plain_write_message; exact I|].
    constructor; [apply plain_write_message; exact I | constructor].
  - etrans; [exact (f_equal (fmap msg_clientSequenceNumber) H)|].
    vm_compute. reflexivity.
Defined.

(** ** Objects that share an id *)

(** X25.  The cache of collaborative objects is keyed by the id an object
    advertises: when two objects with the same id are set under two keys,
    [get] of the first key hands out the second object. *)
Theorem later_object_with_same_id_wins (key1 key2 : string)
    (o1 o2 : ICollaborativeObject) (w : World) :
  obj_id o1 = obj_id o2 →
  key1 ≠ key2 →
  outcome (get_body key1
             (after (set_body key2 (UObject o2)
                       (after (set_body key1 (UObject o1) w)))))
  = Normal (GObject o2).
Proof.
  intros Hid Hne. rewrite !set_body_unfold.
  match goal with |- context [get_body key1 (after (processLocalOperation ?op ?w0))] =>
    pose proof (processLocalOperation_map_state op w0) as Hstate;
    pose proof (processLocalOperation_collaborativeObjects op w0) as Hobjs;
    destruct (processLocalOperation op w0) as [r2 w2] end.
  cbn [after snd] in Hstate, Hobjs. cbn [after snd].
  rewrite applied_set in Hstate.
  change (map_state (set_self _ ?w0)) with (map_state w0) in Hstate.
  rewrite processLocalOperation_map_state, applied_set in Hstate.
  change (property (Some key1)) with key1 in Hstate.
  change (property (Some key2)) with key2 in Hstate.
  unfold get_body. rewrite Hstate.
  rewrite lookup_insert_ne by congruence. rewrite lookup_insert_eq. cbn.
  case_decide; [|done]. rewrite Hobjs. cbn. rewrite Hid.
  by rewrite lookup_insert_eq.
Qed.

Lemma later_object_with_same_id_wins_witness :
  outcome (get_body "first"
             (after (set_body "second" (UObject (mkObject 2 "n" "t"))
                       (after (set_body "first" (UObject (mkObject 1 "n" "t"))
                                 (create "m"))))))
  = Normal (GObject (mkObject 2 "n" "t")).
Proof.
  apply later_object_with_same_id_wins; [reflexivity | discriminate].
Defined.

(** ** Streams of sequenced messages *)

Lemma processRemoteMessage_takes_number message w :
  sm_sequenceNumber message = sequenceNumber (self w) + 1 →
  sequenceNumber (self (after (processRemoteMessage message w)))
  = sm_sequenceNumber message.
Proof.
  intros H. unfold processRemoteMessage, bind, this. cbn.
  case_decide; [|congruence]. case_decide; [|reflexivity].
  by rewrite processRemoteOperation_sequenceNumber.
Qed.

(** X26.  A stream of sequenced messages whose sequence numbers count up
    by one from the map's sequence number plus one is taken in full,
    whatever the messages carry: no delivery fails the adjacency
    assertion, and the sequence number of the map ends at the number of
    the last message. *)
Theorem stream_in_order_is_taken (ms : list ISequencedMessage) (w : World) :
  stream_numbers ms
  = seqZ (sequenceNumber (self w) + 1) (Z.of_nat (length ms)) →
  sequenceNumber (self (deliver_all ms w))
  = sequenceNumber (self w) + Z.of_nat (length ms).
Proof.
  revert w. induction ms as [|message rest IH]; intros w;
    cbn [deliver_all length stream_numbers fmap list_fmap].
  - intros _. lia.
  - rewrite seqZ_cons by lia. intros [= Hhead Hrest].
    rewrite IH.
    + rewrite processRemoteMessage_takes_number by exact Hhead. lia.
    + rewrite processRemoteMessage_takes_number by exact Hhead.
      unfold stream_numbers. rewrite Hrest, Hhead. f_equal; lia.
Qed.

Lemma stream_in_order_is_taken_witness :
  sequenceNumber
    (self (deliver_all [mkSequenced 1 0 "join" "other" 0 0 (mkOp "" None None);
                        mkSequenced 2 0 OperationType "other" 0 0
                          (Sample.set_op "a" 1)] Sample.attached)) = 2.
Proof.
  apply (stream_in_order_is_taken
           [mkSequenced 1 0 "join" "other" 0 0 (mkOp "" None None);
            mkSequenced 2 0 OperationType "other" 0 0 (Sample.set_op "a" 1)]
           Sample.attached).
  reflexivity.
Defined.

(** X27.  Once a message has been missed, nothing of the stream is taken:
    when the sequence numbers of a stream count up by one from a number
    beyond the map's sequence number plus one, every delivery fails the
    adjacency assertion and the world stays exactly as it was. *)
Theorem stream_after_a_gap_is_refused (ms : list ISequencedMessage) (first : Z)
    (w : World) :
  sequenceNumber (self w) + 1 < first →
  stream_numbers ms = seqZ first (Z.of_nat (length ms)) →
  deliver_all ms w = w.
Proof.
  revert first. induction ms as [|message rest IH]; intros first Hgap;
    cbn [deliver_all length stream_numbers fmap list_fmap]; [done|].
  rewrite seqZ_cons by lia. intros [= Hhead Hrest].
  assert (E : processRemoteMessage message w = (Throw AssertionError, w)).
  { unfold processRemoteMessage, bind, this. cbn. case_decide; [lia | done]. }
  rewrite E. cbn [after snd]. apply (IH (Z.succ first)); [lia|].
  unfold stream_numbers. rewrite Hrest. f_equal. lia.
Qed.

Lemma stream_after_a_gap_is_refused_witness :
  deliver_all [mkSequenced 2 0 OperationType "other" 0 0 (Sample.set_op "a" 1);
               mkSequenced 3 0 OperationType "other" 1 0 (Sample.set_op "b" 2)]
    Sample.attached = Sample.attached.
Proof.
  apply (stream_after_a_gap_is_refused _ 2); [vm_compute; reflexivity|].
  reflexivity.
Defined.
